(** * quantum-code-quiz: the streaming quiz parser and its consumer

    A shallow embedding of
    - [generateQuizQuestionsStream], the incremental delimiter-splitting
      parser of the Gemini service (second part of
      [src/components/QuizCard.tsx]);
    - [handleOptionClick] of the [QuizCard] component (first part of the
      same file);
    - [startQuiz], [handleAnswer], [handleNext], [renderContent] of the
      [App] component, the percentages of [ProgressBar] and
      [ScoreSummary], and [interface QuizQuestion]
      ([src/unnamed/part_000]).

    JavaScript strings are sequences of UTF-16 code units, modelled as
    [list N]; JavaScript numbers are IEEE 754 binary64 values, modelled by
    the kernel's primitive floats. *)

From Stdlib Require Import List NArith ZArith Lia Bool Arith.
From Stdlib Require Strings.String Strings.Ascii.
Import String.StringSyntax.
Delimit Scope string_scope with string.
From Stdlib Require Import Floats Uint63.
Import ListNotations.

Set Implicit Arguments.
Set Warnings "-register-all".

(* ================================================================== *)
(** ** JavaScript strings *)
(* ================================================================== *)

(** One UTF-16 code unit. *)
Definition codeunit := N.

(** A JavaScript string value. *)
Definition jsstring := list codeunit.

(** A string literal of the source (the literals used are all ASCII). *)
Definition lit (s : String.string) : jsstring :=
  map Ascii.N_of_ascii (String.list_ascii_of_string s).
Arguments lit s%_string.

Fixpoint jsstring_eqb (a b : jsstring) : bool :=
  match a, b with
  | [], [] => true
  | x :: a', y :: b' => N.eqb x y && jsstring_eqb a' b'
  | _, _ => false
  end.

(** [startsWith s pat]: [pat] occurs in [s] at position 0. *)
Fixpoint startsWith (s pat : jsstring) {struct pat} : bool :=
  match pat, s with
  | [], _ => true
  | p :: pat', c :: s' => N.eqb p c && startsWith s' pat'
  | _ :: _, [] => false
  end.

(** The smallest position at which [pat] occurs in [s], if there is one. *)
Fixpoint search (s pat : jsstring) : option nat :=
  if startsWith s pat then Some 0
  else match s with
       | [] => None
       | _ :: s' => option_map S (search s' pat)
       end.

(** [String.prototype.indexOf]: the first position, or -1. *)
Definition indexOf (s pat : jsstring) : Z :=
  match search s pat with
  | Some i => Z.of_nat i
  | None => (-1)%Z
  end.

(** [String.prototype.includes]: does [pat] occur anywhere in [s]? *)
Fixpoint includes (s pat : jsstring) : bool :=
  startsWith s pat ||
  match s with
  | [] => false
  | _ :: s' => includes s' pat
  end.

(** Clamping of a [substring] argument to [0 .. len]. *)
Definition clamp (len : nat) (i : Z) : nat :=
  Nat.min (Z.to_nat i) len.

(** [s.substring(start, end)]: both arguments are clamped to the length and
    swapped when out of order. *)
Definition substring (s : jsstring) (start end_ : Z) : jsstring :=
  let a := clamp (length s) start in
  let b := clamp (length s) end_ in
  firstn (Nat.max a b - Nat.min a b) (skipn (Nat.min a b) s).

(** [s.substring(start)]. *)
Definition substring_from (s : jsstring) (start : Z) : jsstring :=
  substring s start (Z.of_nat (length s)).

(** The code units [String.prototype.trim] strips: ECMAScript's WhiteSpace
    and LineTerminator. *)
Definition is_whitespace (c : codeunit) : bool :=
  ((9 <=? c) && (c <=? 13) || (c =? 32) || (c =? 160) || (c =? 5760)
   || (8192 <=? c) && (c <=? 8202) || (c =? 8232) || (c =? 8233)
   || (c =? 8239) || (c =? 8287) || (c =? 12288) || (c =? 65279))%N.

Fixpoint trimStart (s : jsstring) : jsstring :=
  match s with
  | c :: s' => if is_whitespace c then trimStart s' else s
  | [] => []
  end.

Definition trimEnd (s : jsstring) : jsstring := rev (trimStart (rev s)).

(** [String.prototype.trim]. *)
Definition trim (s : jsstring) : jsstring := trimEnd (trimStart s).

(** Truthiness of a string: the empty string is the only falsy one. *)
Definition truthy (s : jsstring) : bool :=
  match s with [] => false | _ :: _ => true end.

(* ================================================================== *)
(** ** JSON values and [JSON.parse] *)
(* ================================================================== *)

(** The values [JSON.parse] can return.  A number keeps its literal: the
    binary64 value is a function of it, and nothing below computes with
    it.  An object keeps its members in source order, duplicates
    included (a property read takes the last one). *)
Inductive JSValue : Type :=
| JNull
| JBool (b : bool)
| JNumber (literal : jsstring)
| JString (s : jsstring)
| JArray (elements : list JSValue)
| JObject (members : list (jsstring * JSValue)).

(** Result of a parsing function: a value and the unread input, a
    [SyntaxError], or the recursion budget ran out. *)
Inductive Reading (A : Type) : Type :=
| Ok (a : A) (rest : jsstring)
| SyntaxError
| OutOfFuel.
Arguments SyntaxError {A}.
Arguments OutOfFuel {A}.

(** JSON's own whitespace: tab, line feed, carriage return, space. *)
Definition is_json_ws (c : codeunit) : bool :=
  ((c =? 9) || (c =? 10) || (c =? 13) || (c =? 32))%N.

Fixpoint skip_ws (s : jsstring) : jsstring :=
  match s with
  | c :: s' => if is_json_ws c then skip_ws s' else s
  | [] => []
  end.

Definition is_digit (c : codeunit) : bool := ((48 <=? c) && (c <=? 57))%N.

Definition hex_digit (c : codeunit) : option N :=
  if is_digit c then Some (c - 48)%N
  else if ((97 <=? c) && (c <=? 102))%N then Some (c - 87)%N
  else if ((65 <=? c) && (c <=? 70))%N then Some (c - 55)%N
  else None.

Definition hex4 (a b c d : codeunit) : option codeunit :=
  match hex_digit a, hex_digit b, hex_digit c, hex_digit d with
  | Some x, Some y, Some z, Some w => Some (((x * 16 + y) * 16 + z) * 16 + w)%N
  | _, _, _, _ => None
  end.

(** The single-character escapes: quote, backslash, slash, b f n r t. *)
Definition escape (c : codeunit) : option codeunit :=
  if (c =? 34)%N then Some 34%N
  else if (c =? 92)%N then Some 92%N
  else if (c =? 47)%N then Some 47%N
  else if (c =? 98)%N then Some 8%N
  else if (c =? 102)%N then Some 12%N
  else if (c =? 110)%N then Some 10%N
  else if (c =? 114)%N then Some 13%N
  else if (c =? 116)%N then Some 9%N
  else None.

(** The characters of a string literal, after its opening quote, up to and
    including the closing quote; [acc] holds the result so far, reversed. *)
Fixpoint parse_chars (s acc : jsstring) : Reading jsstring :=
  match s with
  | [] => SyntaxError
  | c :: s1 =>
      if (c =? 34)%N then Ok (rev acc) s1
      else if (c =? 92)%N then
        match s1 with
        | [] => SyntaxError
        | e :: s2 =>
            if (e =? 117)%N then
              match s2 with
              | h1 :: h2 :: h3 :: h4 :: s3 =>
                  match hex4 h1 h2 h3 h4 with
                  | Some u => parse_chars s3 (u :: acc)
                  | None => SyntaxError
                  end
              | _ => SyntaxError
              end
            else
              match escape e with
              | Some u => parse_chars s2 (u :: acc)
              | None => SyntaxError
              end
        end
      else if (c <? 32)%N then SyntaxError
      else parse_chars s1 (c :: acc)
  end.

(** The longest run of decimal digits at the front of [s]. *)
Fixpoint digits (s : jsstring) : jsstring * jsstring :=
  match s with
  | c :: s' =>
      if is_digit c then let (ds, r) := digits s' in (c :: ds, r) else ([], s)
  | [] => ([], [])
  end.

(** A number: an optional minus sign; then 0, or a non-zero digit and more
    digits; then optionally a point and one or more digits; then optionally
    e or E, an optional sign and one or more digits.  The result is the
    literal read. *)
Definition parse_number (s : jsstring) : Reading jsstring :=
  let (sign, s1) :=
    match s with
    | c :: r => if (c =? 45)%N then ([c], r) else ([], s)
    | [] => ([], s)
    end in
  match s1 with
  | [] => SyntaxError
  | d :: r =>
      if negb (is_digit d) then SyntaxError
      else
        let (int, s2) :=
          if (d =? 48)%N then ([d], r)
          else let (ds, r') := digits r in (d :: ds, r') in
        let frac :=
          match s2 with
          | p :: r2 =>
              if (p =? 46)%N then
                let (ds, r3) := digits r2 in
                match ds with
                | [] => None
                | _ :: _ => Some (p :: ds, r3)
                end
              else Some ([], s2)
          | [] => Some ([], s2)
          end in
        match frac with
        | None => SyntaxError
        | Some (fr, s3) =>
            match s3 with
            | e :: r4 =>
                if ((e =? 101) || (e =? 69))%N then
                  let (esign, r5) :=
                    match r4 with
                    | g :: r' =>
                        if ((g =? 43) || (g =? 45))%N then ([g], r') else ([], r4)
                    | [] => ([], r4)
                    end in
                  let (ds, r6) := digits r5 in
                  match ds with
                  | [] => SyntaxError
                  | _ :: _ => Ok (sign ++ int ++ fr ++ e :: esign ++ ds) r6
                  end
                else Ok (sign ++ int ++ fr) s3
            | [] => Ok (sign ++ int ++ fr) s3
            end
        end
  end.

(** Recursive descent over the JSON grammar.  A value reads at least one
    code unit before a value inside it is parsed, two calls deeper, so a
    budget above twice the length of the input is never used up
    ([parse_value_fuel] below). *)
Fixpoint parse_value (fuel : nat) (s : jsstring) : Reading JSValue :=
  match fuel with
  | 0 => OutOfFuel
  | S fuel' =>
      match skip_ws s with
      | [] => SyntaxError
      | c :: r =>
          if (c =? 123)%N then
            match skip_ws r with
            | c' :: r' =>
                if (c' =? 125)%N then Ok (JObject []) r'
                else parse_members fuel' r []
            | [] => SyntaxError
            end
          else if (c =? 91)%N then
            match skip_ws r with
            | c' :: r' =>
                if (c' =? 93)%N then Ok (JArray []) r'
                else parse_elements fuel' r []
            | [] => SyntaxError
            end
          else if (c =? 34)%N then
            match parse_chars r [] with
            | Ok str r' => Ok (JString str) r'
            | SyntaxError => SyntaxError
            | OutOfFuel => OutOfFuel
            end
          else if startsWith (c :: r) (lit "true") then
            Ok (JBool true) (skipn 4 (c :: r))
          else if startsWith (c :: r) (lit "false") then
            Ok (JBool false) (skipn 5 (c :: r))
          else if startsWith (c :: r) (lit "null") then
            Ok JNull (skipn 4 (c :: r))
          else
            match parse_number (c :: r) with
            | Ok l r' => Ok (JNumber l) r'
            | SyntaxError => SyntaxError
            | OutOfFuel => OutOfFuel
            end
      end
  end

with parse_elements (fuel : nat) (s : jsstring) (acc : list JSValue)
  : Reading JSValue :=
  match fuel with
  | 0 => OutOfFuel
  | S fuel' =>
      match parse_value fuel' s with
      | Ok v r =>
          match skip_ws r with
          | d :: r' =>
              if (d =? 44)%N then parse_elements fuel' r' (v :: acc)
              else if (d =? 93)%N then Ok (JArray (rev (v :: acc))) r'
              else SyntaxError
          | [] => SyntaxError
          end
      | SyntaxError => SyntaxError
      | OutOfFuel => OutOfFuel
      end
  end

with parse_members (fuel : nat) (s : jsstring)
       (acc : list (jsstring * JSValue)) : Reading JSValue :=
  match fuel with
  | 0 => OutOfFuel
  | S fuel' =>
      match skip_ws s with
      | q :: r =>
          if (q =? 34)%N then
            match parse_chars r [] with
            | Ok k r1 =>
                match skip_ws r1 with
                | col :: r2 =>
                    if (col =? 58)%N then
                      match parse_value fuel' r2 with
                      | Ok v r3 =>
                          match skip_ws r3 with
                          | d :: r4 =>
                              if (d =? 44)%N then
                                parse_members fuel' r4 ((k, v) :: acc)
                              else if (d =? 125)%N then
                                Ok (JObject (rev ((k, v) :: acc))) r4
                              else SyntaxError
                          | [] => SyntaxError
                          end
                      | SyntaxError => SyntaxError
                      | OutOfFuel => OutOfFuel
                      end
                    else SyntaxError
                | [] => SyntaxError
                end
            | SyntaxError => SyntaxError
            | OutOfFuel => OutOfFuel
            end
          else SyntaxError
      | [] => SyntaxError
      end
  end.

(** [JSON.parse(text)]: [Some] value, or [None] where it throws a
    [SyntaxError].  The whole text must be one value between whitespace. *)
Definition JSON_parse (text : jsstring) : option JSValue :=
  match parse_value (S (2 * length text)) text with
  | Ok v rest =>
      match skip_ws rest with
      | [] => Some v
      | _ :: _ => None
      end
  | SyntaxError => None
  | OutOfFuel => None
  end.

(** A property read [v.key] on a parsed value: the last member of that name
    of an object; [None] stands for [undefined]. *)
Definition get (v : JSValue) (key : jsstring) : option JSValue :=
  match v with
  | JObject members =>
      match find (fun m => jsstring_eqb (fst m) key) (rev members) with
      | Some m => Some (snd m)
      | None => None
      end
  | _ => None
  end.

Definition is_string (v : option JSValue) : bool :=
  match v with Some (JString _) => true | _ => false end.

Definition is_string_array (v : option JSValue) : bool :=
  match v with
  | Some (JArray xs) => forallb (fun x => is_string (Some x)) xs
  | _ => false
  end.

(** The shape of [interface QuizQuestion] (types.ts): an object with
    [question], [correctAnswer] and [explanation] strings, an [options]
    array of strings, and a [code_snippet] that is absent or a string. *)
Definition has_QuizQuestion_shape (v : JSValue) : bool :=
  match v with
  | JObject _ =>
      is_string (get v (lit "question"))
      && is_string_array (get v (lit "options"))
      && is_string (get v (lit "correctAnswer"))
      && is_string (get v (lit "explanation"))
      && match get v (lit "code_snippet") with
         | None => true
         | Some c => is_string (Some c)
         end
  | _ => false
  end.

(* ================================================================== *)
(** ** The Gemini service: [generateQuizQuestionsStream] *)
(* ================================================================== *)

Definition TOTAL_QUESTIONS : nat := 50.

Definition DELIMITER : jsstring := lit "---QML_QUIZ_DELIMITER---".

(** What a run of the generator does, in order.  [ParseCall] is a call of
    [JSON.parse] on a text; [Yield] a record handed to the consumer;
    [ConsoleError] a parse failure logged with [console.error] (the label
    and the text that did not parse).  [Appended] and [Split] record the
    value of [buffer] at the two places where it is assigned: after
    [buffer += chunk.text] and after
    [buffer = buffer.substring(delimiterIndex + DELIMITER.length)]. *)
Inductive Obs : Type :=
| Appended (chunk buffer : jsstring)
| Split (buffer : jsstring)
| ParseCall (text : jsstring)
| Yield (question : JSValue)
| ConsoleError (label text : jsstring).

(** [try { yield JSON.parse(text) } catch (e) { console.error(label, text, e) }] *)
Definition try_parse (label text : jsstring) : list Obs :=
  ParseCall text ::
  match JSON_parse text with
  | Some question => [Yield question]
  | None => [ConsoleError label text]
  end.

(** The [while (buffer.includes(DELIMITER))] loop: what it does and the
    buffer it leaves.  The buffer gets shorter at every iteration, so
    [fuel] above its length is never used up ([while_loop_fuel] below). *)
Fixpoint while_loop (fuel : nat) (buffer : jsstring) : list Obs * jsstring :=
  match fuel with
  | 0 => ([], buffer)
  | S fuel' =>
      if includes buffer DELIMITER then
        let delimiterIndex := indexOf buffer DELIMITER in
        let jsonString := trim (substring buffer 0 delimiterIndex) in
        let buffer' :=
          substring_from buffer
            (delimiterIndex + Z.of_nat (length DELIMITER)) in
        let body :=
          if truthy jsonString
          then try_parse (lit "Failed to parse JSON chunk:") jsonString
          else [] in
        let (rest, final) := while_loop fuel' buffer' in
        (Split buffer' :: body ++ rest, final)
      else ([], buffer)
  end.

(** The [for await (const chunk of stream)] loop over the chunk texts. *)
Fixpoint for_await (chunks : list jsstring) (buffer : jsstring)
  : list Obs * jsstring :=
  match chunks with
  | [] => ([], buffer)
  | chunk :: chunks' =>
      let buffer1 := buffer ++ chunk in
      let (obs1, buffer2) := while_loop (S (length buffer1)) buffer1 in
      let (obs2, final) := for_await chunks' buffer2 in
      (Appended chunk buffer1 :: obs1 ++ obs2, final)
  end.

(** The code after the loop: the rest of the buffer, if it is not blank. *)
Definition finalization (buffer : jsstring) : list Obs :=
  if truthy (trim buffer)
  then try_parse (lit "Failed to parse final JSON chunk:") (trim buffer)
  else [].

(** A value thrown by the upstream source: an [Error] with its message, or
    something that is not an [Error]. *)
Inductive Thrown : Type :=
| ErrorObject (message : jsstring)
| NotAnError.

(** The upstream stream as the generator sees it: for each chunk it
    delivers the string that [buffer += chunk.text] appends, then either
    completion or a thrown value ([failure]).  A failure of
    [generateContentStream] itself is a stream with no chunk. *)
Record Upstream : Type := {
  chunks : list jsstring;
  failure : option Thrown
}.

(** How the generator ends. *)
Inductive Completion : Type :=
| Returned
| Threw (e : Thrown).

(** [generateQuizQuestionsStream]: all it does, and how it ends.  A thrown
    value leaves the [for await] loop and the function, so the code after
    the loop does not run. *)
Definition generateQuizQuestionsStream (up : Upstream)
  : list Obs * Completion :=
  let (obs, buffer) := for_await (chunks up) [] in
  match failure up with
  | Some e => (obs, Threw e)
  | None => (obs ++ finalization buffer, Returned)
  end.

(** A stream that completes. *)
Definition completes (cs : list jsstring) : Upstream :=
  {| chunks := cs; failure := None |}.

(** The observations of a run over chunks [cs] of a stream that completes. *)
Definition run (cs : list jsstring) : list Obs :=
  fst (generateQuizQuestionsStream (completes cs)).

(** The records the consumer receives, in order. *)
Fixpoint records (obs : list Obs) : list JSValue :=
  match obs with
  | [] => []
  | Yield q :: obs' => q :: records obs'
  | _ :: obs' => records obs'
  end.

(** The texts handed to [JSON.parse], in order: the parse attempts. *)
Fixpoint attempts (obs : list Obs) : list jsstring :=
  match obs with
  | [] => []
  | ParseCall text :: obs' => text :: attempts obs'
  | _ :: obs' => attempts obs'
  end.

(** The texts logged as parse failures, in order. *)
Fixpoint console_errors (obs : list Obs) : list jsstring :=
  match obs with
  | [] => []
  | ConsoleError _ text :: obs' => text :: console_errors obs'
  | _ :: obs' => console_errors obs'
  end.

(** The effects of a run: the observations without the buffer values. *)
Fixpoint effects (obs : list Obs) : list Obs :=
  match obs with
  | [] => []
  | Appended _ _ :: obs' => effects obs'
  | Split _ :: obs' => effects obs'
  | o :: obs' => o :: effects obs'
  end.

(** JSON text written with single quotes for the double ones. *)
Definition json (s : String.string) : jsstring :=
  map (fun c => if (c =? 39)%N then 34%N else c) (lit s).
Arguments json s%_string.

(* ================================================================== *)
(** ** The segments of a text *)
(* ================================================================== *)

(** [pat] occurs in [s] at position [i]. *)
Definition occurs_at (pat s : jsstring) (i : nat) : Prop :=
  exists pre post, s = pre ++ pat ++ post /\ length pre = i.

(** [t] contains no delimiter. *)
Definition delimiter_free (t : jsstring) : Prop :=
  forall i, ~ occurs_at DELIMITER t i.

(** The delimiter that follows [seg] is the first one: no delimiter starts
    inside [seg], not even one that would run over into the delimiter that
    follows (the delimiter begins and ends with the same three dashes). *)
Definition first_delimiter_after (seg : jsstring) : Prop :=
  forall i, i < length seg -> ~ occurs_at DELIMITER (seg ++ DELIMITER) i.

(** [segs] each followed by a delimiter, then [trailing]. *)
Fixpoint join (segs : list jsstring) (trailing : jsstring) : jsstring :=
  match segs with
  | [] => trailing
  | seg :: segs' => seg ++ DELIMITER ++ join segs' trailing
  end.

(** [Segmented text segs trailing]: read from the left, [text] consists of
    the delimiter-separated segments [segs], each ended by the first
    delimiter after its start, followed by the non-delimited [trailing]
    content.  Every text has exactly one segmentation
    ([Segmented_exists], [Segmented_unique] below). *)
Inductive Segmented : jsstring -> list jsstring -> jsstring -> Prop :=
| Segmented_trailing (t : jsstring) :
    delimiter_free t -> Segmented t [] t
| Segmented_segment (seg rest : jsstring) (segs : list jsstring)
    (t : jsstring) :
    first_delimiter_after seg ->
    Segmented rest segs t ->
    Segmented (seg ++ DELIMITER ++ rest) (seg :: segs) t.

(** [Consumed text n rest]: [rest] is what follows the [n]-th delimiter
    consumed from the left of [text] (all of [text] when [n] is 0). *)
Definition Consumed (text : jsstring) (n : nat) (rest : jsstring) : Prop :=
  exists segs, length segs = n /\ Forall first_delimiter_after segs
               /\ text = join segs rest.

(** A segment is blank when nothing is left of it after trimming. *)
Definition blank (seg : jsstring) : bool := negb (truthy (trim seg)).

(** The record of a segment: the value of its trimmed text. *)
Definition record_of (seg : jsstring) : option JSValue :=
  JSON_parse (trim seg).

(** The values of a list of options that are present, in order. *)
Fixpoint somes (A : Type) (l : list (option A)) : list A :=
  match l with
  | [] => []
  | Some a :: l' => a :: somes l'
  | None :: l' => somes l'
  end.

(** The buffer values of a run agree with the chunks received and the
    delimiters consumed so far: [received] and [n] are the text received
    and the number of splits before [obs]. *)
Fixpoint buffer_invariant (received : jsstring) (n : nat) (obs : list Obs)
  : Prop :=
  match obs with
  | [] => True
  | Appended chunk buffer :: obs' =>
      Consumed (received ++ chunk) n buffer
      /\ buffer_invariant (received ++ chunk) n obs'
  | Split buffer :: obs' =>
      Consumed received (S n) buffer
      /\ buffer_invariant received (S n) obs'
  | _ :: obs' => buffer_invariant received n obs'
  end.

(** What the loop body does for one delimited segment, the buffer apart. *)
Definition segment_effects (seg : jsstring) : list Obs :=
  if truthy (trim seg)
  then try_parse (lit "Failed to parse JSON chunk:") (trim seg)
  else [].

(** What the while loop does on a buffer made of [segs] and [t]. *)
Fixpoint drained (segs : list jsstring) (t : jsstring) : list Obs :=
  match segs with
  | [] => []
  | seg :: segs' =>
      Split (join segs' t) :: segment_effects seg ++ drained segs' t
  end.

(** A way to check a segmentation by computation. *)
Definition check_segment (seg : jsstring) : bool :=
  match search (seg ++ DELIMITER) DELIMITER with
  | Some i => Nat.eqb i (length seg)
  | None => false
  end.

(** The text of the chunks appended in [obs]. *)
Fixpoint received (obs : list Obs) : jsstring :=
  match obs with
  | [] => []
  | Appended chunk _ :: obs' => chunk ++ received obs'
  | _ :: obs' => received obs'
  end.

(** The number of delimiter splits in [obs]. *)
Fixpoint splits (obs : list Obs) : nat :=
  match obs with
  | [] => 0
  | Split _ :: obs' => S (splits obs')
  | _ :: obs' => splits obs'
  end.

(** The buffer value of an observation, where it has one. *)
Definition buffer_at (o : Obs) : option jsstring :=
  match o with
  | Appended _ b => Some b
  | Split b => Some b
  | _ => None
  end.

(* ================================================================== *)
(** ** The [App] and [QuizCard] components *)
(* ================================================================== *)

Module QuizState.
(** [type QuizState = 'idle' | 'loading' | 'active' | 'finished' | 'error'] *)
Inductive t : Type := idle | loading | active | finished | error.
End QuizState.

Definition TOTAL_QUESTIONS_TARGET : nat := 50.

(** The state of the [App] component: its seven [useState] cells.  The
    questions are the values the generator yielded, as they are. *)
Record App : Type := {
  quizState : QuizState.t;
  questions : list JSValue;
  currentQuestionIndex : nat;
  score : nat;
  error : option jsstring;
  isKeySet : bool;
  isCheckingKey : bool
}.

(** The state of a mounted [QuizCard]. *)
Record Card : Type := {
  selectedOption : option jsstring;
  isAnswered : bool
}.

(** A [QuizCard] as it is mounted. *)
Definition fresh_card : Card :=
  {| selectedOption := None; isAnswered := false |}.

(** [startQuiz], before the stream is read: the five setters. *)
Definition startQuiz_begin (a : App) : App :=
  {| quizState := QuizState.loading;
     questions := [];
     currentQuestionIndex := 0;
     score := 0;
     error := None;
     isKeySet := isKeySet a;
     isCheckingKey := isCheckingKey a |}.

(** The body of the [for await] loop of [startQuiz]:
    [setQuestions(prev => [...prev, question])]. *)
Definition startQuiz_question (a : App) (question : JSValue) : App :=
  {| quizState := quizState a;
     questions := questions a ++ [question];
     currentQuestionIndex := currentQuestionIndex a;
     score := score a;
     error := error a;
     isKeySet := isKeySet a;
     isCheckingKey := isCheckingKey a |}.

(** [err instanceof Error ? err.message : 'An unknown error occurred.'] *)
Definition errorMessage (err : Thrown) : jsstring :=
  match err with
  | ErrorObject message => message
  | NotAnError => lit "An unknown error occurred."
  end.

(** The test of the [catch] block for the invalid-credential condition. *)
Definition api_key_not_valid (err : Thrown) : bool :=
  includes (errorMessage err) (lit "API key not valid").

(** The [catch] block of [startQuiz]. *)
Definition startQuiz_catch (a : App) (err : Thrown) : App :=
  if api_key_not_valid err then
    {| quizState := QuizState.idle;
       questions := questions a;
       currentQuestionIndex := currentQuestionIndex a;
       score := score a;
       error := Some (lit "Your API key appears to be invalid. Please select a new one to continue.");
       isKeySet := false;
       isCheckingKey := isCheckingKey a |}
  else
    {| quizState := QuizState.error;
       questions := questions a;
       currentQuestionIndex := currentQuestionIndex a;
       score := score a;
       error := Some (errorMessage err);
       isKeySet := isKeySet a;
       isCheckingKey := isCheckingKey a |}.

(** [handleAnswer]. *)
Definition handleAnswer (a : App) (isCorrect : bool) : App :=
  if isCorrect then
    {| quizState := quizState a;
       questions := questions a;
       currentQuestionIndex := currentQuestionIndex a;
       score := score a + 1;
       error := error a;
       isKeySet := isKeySet a;
       isCheckingKey := isCheckingKey a |}
  else a.

(** [handleNext]; [questions.length - 1] is -1 for an empty list. *)
Definition handleNext (a : App) : App :=
  if (Z.of_nat (currentQuestionIndex a)
      <? Z.of_nat (length (questions a)) - 1)%Z then
    {| quizState := quizState a;
       questions := questions a;
       currentQuestionIndex := currentQuestionIndex a + 1;
       score := score a;
       error := error a;
       isKeySet := isKeySet a;
       isCheckingKey := isCheckingKey a |}
  else
    {| quizState := QuizState.finished;
       questions := questions a;
       currentQuestionIndex := currentQuestionIndex a;
       score := score a;
       error := error a;
       isKeySet := isKeySet a;
       isCheckingKey := isCheckingKey a |}.

(** [option === question.correctAnswer], for an [option] that is a string,
    as the options of a record of the [QuizQuestion] shape are: true
    exactly when the property is a string of the same code units.  The
    generator does not check the shape, so a record can hold options that
    are not strings; a click on such an option is not modelled here. *)
Definition is_correct (question : JSValue) (option_ : jsstring) : bool :=
  match get question (lit "correctAnswer") with
  | Some (JString s) => jsstring_eqb option_ s
  | _ => false
  end.

(** [handleOptionClick]: the new state of the card, and the argument of
    the [onAnswer] call if there is one. *)
Definition handleOptionClick (c : Card) (question : JSValue)
  (option_ : jsstring) : Card * option bool :=
  if isAnswered c then (c, None)
  else
    let isCorrect := is_correct question option_ in
    ({| selectedOption := Some option_; isAnswered := true |}, Some isCorrect).

(** What [renderContent] shows. *)
Inductive View : Type :=
| VerifyingSetup
| ApiKeySetup (error : option jsstring)
| StartScreen
| LoadingScreen
| QuizCardView
| Nothing
| ScoreSummaryView
| ErrorScreen (error : option jsstring).

(** [renderContent]. *)
Definition renderContent (a : App) : View :=
  if isCheckingKey a then VerifyingSetup
  else if negb (isKeySet a) then ApiKeySetup (error a)
  else match quizState a with
       | QuizState.idle => StartScreen
       | QuizState.loading => LoadingScreen
       | QuizState.active =>
           match questions a with
           | [] => Nothing
           | _ :: _ => QuizCardView
           end
       | QuizState.finished => ScoreSummaryView
       | QuizState.error => ErrorScreen (error a)
       end.

(** The page while a quiz runs: the [App], the card (meaningful while a
    [QuizCard] is mounted), and a log of the [onAnswer] calls so far, the
    latest first, each with the index of the question it was made for. *)
Record Page : Type := {
  app : App;
  card : Card;
  answers : list (nat * bool)
}.

(** What can happen within one quiz, between a call of [startQuiz] and the
    next: its summary's Try Another Quiz button, which calls [startQuiz]
    again, is not among these events but an [Action] of its own, below. *)
Inductive Event : Type :=
| Arrived (question : JSValue)    (* the generator yields a record *)
| TimerFired                      (* the 500 ms timer of the effect *)
| OptionClick (option_ : jsstring) (* a click on an option button *)
| NextClick.                      (* a click on Next / Finish *)

Definition set_app (p : Page) (a : App) : Page :=
  {| app := a; card := card p; answers := answers p |}.

(** One event.  The timer exists only while the state is ['loading'] and
    there is a question; it mounts a card.  The buttons exist only while a
    card is shown; the Next button is disabled until the question is
    answered; a new question index mounts a new card ([key]).  Any string
    may be clicked here; the real buttons are those of
    [question.options]. *)
Definition step (p : Page) (e : Event) : Page :=
  match e with
  | Arrived question => set_app p (startQuiz_question (app p) question)
  | TimerFired =>
      match quizState (app p), questions (app p) with
      | QuizState.loading, _ :: _ =>
          {| app := {| quizState := QuizState.active;
                       questions := questions (app p);
                       currentQuestionIndex := currentQuestionIndex (app p);
                       score := score (app p);
                       error := error (app p);
                       isKeySet := isKeySet (app p);
                       isCheckingKey := isCheckingKey (app p) |};
             card := fresh_card;
             answers := answers p |}
      | _, _ => p
      end
  | OptionClick option_ =>
      match renderContent (app p),
            nth_error (questions (app p)) (currentQuestionIndex (app p)) with
      | QuizCardView, Some question =>
          match handleOptionClick (card p) question option_ with
          | (c, Some isCorrect) =>
              {| app := handleAnswer (app p) isCorrect;
                 card := c;
                 answers := (currentQuestionIndex (app p), isCorrect)
                            :: answers p |}
          | (c, None) => {| app := app p; card := c; answers := answers p |}
          end
      | _, _ => p
      end
  | NextClick =>
      match renderContent (app p) with
      | QuizCardView =>
          if isAnswered (card p) then
            let a := handleNext (app p) in
            {| app := a;
               card := if Nat.eqb (currentQuestionIndex a)
                                  (currentQuestionIndex (app p))
                       then card p else fresh_card;
               answers := answers p |}
          else p
      | _ => p
      end
  end.

(** The page when [startQuiz] starts to read the stream. *)
Definition started (a : App) : Page :=
  {| app := startQuiz_begin a; card := fresh_card; answers := [] |}.

(** The page after a list of events. *)
Definition after (p : Page) (events : list Event) : Page :=
  fold_left step events p.

(** The records that arrive in a list of events. *)
Fixpoint arrivals (events : list Event) : list JSValue :=
  match events with
  | [] => []
  | Arrived question :: events' => question :: arrivals events'
  | _ :: events' => arrivals events'
  end.

(** The end of [startQuiz]: the [catch] block if the generator threw. *)
Definition startQuiz_end (a : App) (c : Completion) : App :=
  match c with
  | Returned => a
  | Threw err => startQuiz_catch a err
  end.

(** [startQuiz] run against a stream, with nothing else happening
    meanwhile. *)
Definition startQuiz (a : App) (up : Upstream) : App :=
  let (obs, c) := generateQuizQuestionsStream up in
  startQuiz_end
    (fold_left startQuiz_question (records obs) (startQuiz_begin a)) c.

(** The number of correct answers in a log. *)
Fixpoint correct_answers (log : list (nat * bool)) : nat :=
  match log with
  | [] => 0
  | (_, true) :: log' => S (correct_answers log')
  | (_, false) :: log' => correct_answers log'
  end.

(** What holds of a page all along a quiz: the score counts the correct
    answers of the log, no question index is logged twice, and the indices
    logged are those of the questions before the current one, and of the
    current one once it is answered. *)
Definition page_invariant (p : Page) : Prop :=
  score (app p) = correct_answers (answers p)
  /\ NoDup (map fst (answers p))
  /\ match quizState (app p) with
     | QuizState.loading => answers p = []
     | QuizState.active =>
         Forall (fun i => i < currentQuestionIndex (app p)
                              + (if isAnswered (card p) then 1 else 0))
           (map fst (answers p))
     | _ => True
     end.

(* ================================================================== *)
(** ** The percentages of [ProgressBar] and [ScoreSummary] *)
(* ================================================================== *)

(** A counter or a length as a JavaScript number. *)
Definition number (n : nat) : float :=
  PrimFloat.of_uint63 (Uint63.of_Z (Z.of_nat n)).

(** [Math.round]: the nearest integer, the one toward +infinity on a tie;
    zeros, infinities and NaN are returned as they are, and so is the
    sign of a result that is zero. *)
Definition Math_round (x : float) : float :=
  match Prim2SF x with
  | S754_finite s m e =>
      if (0 <=? e)%Z then x
      else
        let d := (2 ^ (- e))%Z in
        let num := if s then Z.neg m else Z.pos m in
        let n := ((2 * num + d) / (2 * d))%Z in
        if (n =? 0)%Z then (if s then neg_zero else zero)
        else if (0 <? n)%Z then PrimFloat.of_uint63 (Uint63.of_Z n)
        else (- PrimFloat.of_uint63 (Uint63.of_Z (- n)))%float
  | _ => x
  end.

(** [ProgressBar]: [max > 0 ? (value / max) * 100 : 0]. *)
Definition ProgressBar_percentage (value max : float) : float :=
  if (0 <? max)%float then (value / max * 100)%float else 0%float.

(** [ScoreSummary]: [total > 0 ? Math.round((score / total) * 100) : 0]. *)
Definition ScoreSummary_percentage (score total : float) : float :=
  if (0 <? total)%float then Math_round (score / total * 100)%float
  else 0%float.

(* ================================================================== *)
(** ** The rest of the [QuizCard] and [App] components *)
(* ================================================================== *)

(** [option === selectedOption], for an [option] that is a string and a
    [selectedOption] that is a string or [null]. *)
Definition is_selected (c : Card) (option_ : jsstring) : bool :=
  match selectedOption c with
  | Some s => jsstring_eqb option_ s
  | None => false
  end.

(** The four class strings of [getOptionClass]. *)
Definition class_open : jsstring :=
  lit "border-gray-600 bg-gray-800 hover:bg-gray-700 hover:border-purple-500".
Definition class_correct : jsstring :=
  lit "border-green-500 bg-green-900/50 text-white".
Definition class_wrong : jsstring :=
  lit "border-red-500 bg-red-900/50 text-white".
Definition class_dimmed : jsstring :=
  lit "border-gray-700 bg-gray-800 opacity-60".

(** [getOptionClass]. *)
Definition getOptionClass (c : Card) (question : JSValue)
  (option_ : jsstring) : jsstring :=
  if negb (isAnswered c) then class_open
  else if is_correct question option_ then class_correct
  else if is_selected c option_ && negb (is_correct question option_)
       then class_wrong
  else class_dimmed.

(** What [renderIconForOption] can return besides [null]. *)
Inductive Icon : Type :=
| CheckCircleIcon
| XCircleIcon
| Placeholder.

(** [renderIconForOption]; [None] stands for [null]. *)
Definition renderIconForOption (c : Card) (question : JSValue)
  (option_ : jsstring) : option Icon :=
  if negb (isAnswered c) then None
  else if is_correct question option_ then Some CheckCircleIcon
  else if is_selected c option_ && negb (is_correct question option_)
       then Some XCircleIcon
  else Some Placeholder.

(** The label of the last button of the card:
    [questionNumber === totalQuestions ? 'Finish' : 'Next']. *)
Definition next_button_label (questionNumber totalQuestions : nat)
  : jsstring :=
  if Nat.eqb questionNumber totalQuestions then lit "Finish" else lit "Next".

(** The label as [App] has the card show it: [questionNumber] is
    [currentQuestionIndex + 1] and [totalQuestions] is [questions.length]. *)
Definition shown_next_label (a : App) : jsstring :=
  next_button_label (currentQuestionIndex a + 1) (length (questions a)).

(** The state of [App] when it is mounted: the initial values of its
    [useState] cells. *)
Definition initial_app : App :=
  {| quizState := QuizState.idle;
     questions := [];
     currentQuestionIndex := 0;
     score := 0;
     error := None;
     isKeySet := false;
     isCheckingKey := true |}.

(** [checkApiKey], the effect run once on mount.  [hasKey] is what
    [window.aistudio.hasSelectedApiKey()] resolves to, [None] when it
    rejects ([catch]: no key); [finally] the check is over. *)
Definition checkApiKey (a : App) (hasKey : option bool) : App :=
  {| quizState := quizState a;
     questions := questions a;
     currentQuestionIndex := currentQuestionIndex a;
     score := score a;
     error := error a;
     isKeySet := match hasKey with Some b => b | None => false end;
     isCheckingKey := false |}.

(** The [onKeySet] callback [App] hands to [ApiKeySetup]. *)
Definition onKeySet (a : App) : App :=
  {| quizState := quizState a;
     questions := questions a;
     currentQuestionIndex := currentQuestionIndex a;
     score := score a;
     error := None;
     isKeySet := true;
     isCheckingKey := isCheckingKey a |}.

(** [handleSetupClick] of [ApiKeySetup]: [onKeySet] runs once
    [window.aistudio.openSelectKey()] has resolved ([opened]); if it
    rejects, nothing is set. *)
Definition handleSetupClick (a : App) (opened : bool) : App :=
  if opened then onKeySet a else a.

(** The Back to Home button of the error screen: [setQuizState('idle')]. *)
Definition backToHome (a : App) : App :=
  {| quizState := QuizState.idle;
     questions := questions a;
     currentQuestionIndex := currentQuestionIndex a;
     score := score a;
     error := error a;
     isKeySet := isKeySet a;
     isCheckingKey := isCheckingKey a |}.

(** The message of [ScoreSummary], from its percentage. *)
Definition ScoreSummary_message (percentage : float) : jsstring :=
  if (80 <=? percentage)%float then lit "Excellent!"
  else if (50 <=? percentage)%float then lit "Good Job!"
  else lit "Keep practicing!".

(** What holds of a page all along a quiz, in full: the quiz is loading,
    active or finished; while it loads nothing is answered and the index
    is 0; while it is active or finished the index is that of a question
    held, and the questions answered are exactly those before the current
    one, and the current one once it is answered, the latest first. *)
Definition page_progress (p : Page) : Prop :=
  match quizState (app p) with
  | QuizState.loading =>
      currentQuestionIndex (app p) = 0 /\ answers p = []
  | QuizState.active =>
      currentQuestionIndex (app p) < length (questions (app p))
      /\ map fst (answers p)
         = rev (seq 0 (currentQuestionIndex (app p)
                       + (if isAnswered (card p) then 1 else 0)))
  | QuizState.finished =>
      currentQuestionIndex (app p) < length (questions (app p))
      /\ map fst (answers p) = rev (seq 0 (currentQuestionIndex (app p) + 1))
  | QuizState.idle => False
  | QuizState.error => False
  end.

(** Whether a trimmed text is logged as a parse failure. *)
Definition fails_to_parse (text : jsstring) : bool :=
  match JSON_parse text with Some _ => false | None => true end.

(** A record of the [QuizQuestion] shape and its JSON text, for the
    examples. *)
Definition example_question : JSValue :=
  JObject [(lit "question", JString (lit "Q1"));
           (lit "options", JArray [JString (lit "A"); JString (lit "B")]);
           (lit "correctAnswer", JString (lit "B"));
           (lit "explanation", JString (lit "E"))].

Definition example_question_text : jsstring :=
  json "{'question':'Q1','options':['A','B'],'correctAnswer':'B','explanation':'E'}".







(** Observations in which every text handed to [JSON.parse] is followed
    by its outcome: the records are the values of the texts that parse,
    and the texts logged are those that do not, in order. *)
Definition accounted (obs : list Obs) : Prop :=
  records obs = somes (map JSON_parse (attempts obs))
  /\ console_errors obs = filter fails_to_parse (attempts obs).

(** A stream that delivers the chunks [cs] and then fails with [err]. *)
Definition fails_with (cs : list jsstring) (err : Thrown) : Upstream :=
  {| chunks := cs; failure := Some err |}.

(** The percentage of [score] out of [total] rounded to the nearest
    integer, halves upward, in exact arithmetic. *)
Definition exact_percentage (score total : nat) : nat :=
  (200 * score + total) / (2 * total).

(** Whether [k] is a nearest integer to the percentage of [score] out of
    [total]: the two differ by a half at most. *)
Definition nearest_percentage (k score total : nat) : bool :=
  (2 * total * k <=? 200 * score + total)
  && (200 * score <=? 2 * total * k + total).

(** Whether [ScoreSummary] shows, for [score] out of [total], the integer
    [k], a nearest one and at most 100, with the message of the thresholds
    80 and 50 at [k]. *)
Definition summary_shows (k score total : nat) : bool :=
  let percentage := ScoreSummary_percentage (number score) (number total) in
  PrimFloat.Leibniz.eqb percentage (number k)
  && nearest_percentage k score total
  && (k <=? 100)
  && jsstring_eqb (ScoreSummary_message percentage)
       (if 80 <=? k then lit "Excellent!"
        else if 50 <=? k then lit "Good Job!"
        else lit "Keep practicing!").

(** Whether it shows the exact rounded percentage or the integer below. *)
Definition summary_nearest (score total : nat) : bool :=
  summary_shows (exact_percentage score total) score total
  || summary_shows (exact_percentage score total - 1) score total.

(** Whether the width [ProgressBar] computes for [value] out of [max] is
    above 0 and at most 100, and 100 only when [value] is [max]. *)
Definition width_in_range (value max : nat) : bool :=
  let percentage := ProgressBar_percentage (number value) (number max) in
  (0 <? percentage)%float && (percentage <=? 100)%float
  && (negb (percentage =? 100)%float || Nat.eqb value max).

(* ================================================================== *)
(** ** Facts about the string operations *)
(* ================================================================== *)

Lemma startsWith_spec (s pat : jsstring) :
  startsWith s pat = true <-> exists post, s = pat ++ post.
Proof.
  revert s; induction pat as [|p pat IH]; intros s; simpl.
  - split; [intros _; now exists s | reflexivity].
  - destruct s as [|c s]; simpl.
    + split; [discriminate | intros [post H]; discriminate].
    + rewrite andb_true_iff, N.eqb_eq, IH. split.
      * intros [-> [post ->]]. now exists post.
      * intros [post H]. injection H as -> ->. split; [reflexivity | now exists post].
Qed.

Lemma occurs_at_0 (pat s : jsstring) :
  occurs_at pat s 0 <-> startsWith s pat = true.
Proof.
  rewrite startsWith_spec. unfold occurs_at. split.
  - intros (pre & post & -> & Hlen).
    destruct pre; [now exists post | discriminate].
  - intros [post ->]. now exists [], post.
Qed.

Lemma occurs_at_S (pat : jsstring) (c : codeunit) (s : jsstring) (i : nat) :
  occurs_at pat (c :: s) (S i) <-> occurs_at pat s i.
Proof.
  unfold occurs_at. split.
  - intros (pre & post & H & Hlen).
    destruct pre as [|c' pre]; [discriminate|].
    simpl in H. injection H as -> ->. injection Hlen as Hlen.
    now exists pre, post.
  - intros (pre & post & -> & Hlen).
    exists (c :: pre), post. simpl. now rewrite Hlen.
Qed.

Lemma occurs_at_nil (pat : jsstring) (i : nat) :
  occurs_at pat [] (S i) -> False.
Proof.
  intros (pre & post & H & Hlen). destruct pre; discriminate.
Qed.

(** [search] finds the first occurrence. *)
Lemma search_Some (s pat : jsstring) (i : nat) :
  search s pat = Some i <->
  occurs_at pat s i /\ forall j, j < i -> ~ occurs_at pat s j.
Proof.
  revert i; induction s as [|c s IH]; intros i.
  - simpl. destruct (startsWith [] pat) eqn:E.
    + split.
      * intros [= <-]. split; [now apply occurs_at_0 | intros j Hj; lia].
      * intros [H Hmin]. destruct i; [reflexivity|].
        exfalso. now apply occurs_at_nil in H.
    + split; [discriminate|].
      intros [H _]. destruct i.
      * apply occurs_at_0 in H. congruence.
      * exfalso. now apply occurs_at_nil in H.
  - cbn [search]. destruct (startsWith (c :: s) pat) eqn:E.
    + split.
      * intros [= <-]. split; [now apply occurs_at_0 | intros j Hj; lia].
      * intros [H Hmin]. destruct i; [reflexivity|].
        exfalso. apply (Hmin 0); [lia | now apply occurs_at_0].
    + destruct (search s pat) as [k|]; simpl.
      * split.
        -- intros [= <-]. destruct (proj1 (IH k) eq_refl) as [Hk Hmin].
           split; [now apply occurs_at_S|].
           intros [|j] Hj Hocc.
           ++ apply occurs_at_0 in Hocc. congruence.
           ++ apply occurs_at_S in Hocc. apply (Hmin j); [lia | exact Hocc].
        -- intros [H Hmin]. destruct i as [|i].
           ++ apply occurs_at_0 in H. congruence.
           ++ f_equal. apply occurs_at_S in H.
              assert (Hi : Some k = Some i).
              { apply IH. split; [exact H|]. intros j Hj Hocc.
                apply (Hmin (S j)); [lia | now apply occurs_at_S]. }
              congruence.
      * split; [discriminate|].
        intros [H Hmin]. destruct i as [|i].
        -- apply occurs_at_0 in H. congruence.
        -- apply occurs_at_S in H.
           assert (Hi : None = Some i).
           { apply IH. split; [exact H|]. intros j Hj Hocc.
             apply (Hmin (S j)); [lia | now apply occurs_at_S]. }
           discriminate.
Qed.

Lemma search_None (s pat : jsstring) :
  search s pat = None <-> forall i, ~ occurs_at pat s i.
Proof.
  induction s as [|c s IH]; cbn [search].
  - destruct (startsWith [] pat) eqn:E.
    + split; [discriminate|]. intros H. exfalso. apply (H 0). now apply occurs_at_0.
    + split; [|reflexivity]. intros _ [|i] H.
      * apply occurs_at_0 in H. congruence.
      * now apply occurs_at_nil in H.
  - destruct (startsWith (c :: s) pat) eqn:E.
    + split; [discriminate|]. intros H. exfalso. apply (H 0). now apply occurs_at_0.
    + destruct (search s pat) as [k|] eqn:Es; simpl.
      * split; [discriminate|]. intros H. exfalso.
        apply search_Some in Es as [Hk _]. apply (H (S k)). now apply occurs_at_S.
      * split; [|reflexivity]. intros _ [|i] H.
        -- apply occurs_at_0 in H. congruence.
        -- apply occurs_at_S in H. revert H. now apply (proj1 IH).
Qed.

(** [includes] and [indexOf] agree with [search]. *)
Lemma includes_search (s pat : jsstring) :
  includes s pat = match search s pat with Some _ => true | None => false end.
Proof.
  induction s as [|c s IH]; cbn [includes search].
  - destruct (startsWith [] pat); reflexivity.
  - destruct (startsWith (c :: s) pat); [reflexivity|].
    rewrite IH. simpl. destruct (search s pat); reflexivity.
Qed.

Lemma includes_false (s pat : jsstring) :
  includes s pat = false <-> forall i, ~ occurs_at pat s i.
Proof.
  rewrite includes_search, <- search_None.
  destruct (search s pat); split; congruence.
Qed.

Lemma includes_indexOf (s pat : jsstring) :
  includes s pat = negb (indexOf s pat =? -1)%Z.
Proof.
  rewrite includes_search. unfold indexOf.
  destruct (search s pat) as [i|]; [|reflexivity].
  symmetry. apply negb_true_iff, Z.eqb_neq. lia.
Qed.

Lemma app_same_length (A : Type) (x1 x2 y1 y2 : list A) :
  x1 ++ y1 = x2 ++ y2 -> length x1 = length x2 -> x1 = x2 /\ y1 = y2.
Proof.
  revert x2; induction x1 as [|a x1 IH]; intros [|b x2] H Hlen;
    try discriminate.
  - now split.
  - simpl in H. injection H as -> H. injection Hlen as Hlen.
    destruct (IH _ H Hlen) as [-> ->]. now split.
Qed.

Lemma occurs_at_app_l (pat x y : jsstring) (i : nat) :
  occurs_at pat x i -> occurs_at pat (x ++ y) i.
Proof.
  intros (pre & post & -> & Hlen). exists pre, (post ++ y).
  now rewrite <- !app_assoc.
Qed.

(** An occurrence that ends inside a prefix is an occurrence in the prefix. *)
Lemma occurs_at_prefix (pat x y : jsstring) (i : nat) :
  occurs_at pat (x ++ y) i -> i + length pat <= length x -> occurs_at pat x i.
Proof.
  intros (pre & post & H & Hlen) Hle.
  exists pre, (skipn (i + length pat) x). split; [|exact Hlen].
  assert (Hf : firstn (i + length pat) (x ++ y) = pre ++ pat).
  { rewrite H, app_assoc, firstn_app.
    replace (i + length pat - length (pre ++ pat)) with 0
      by (rewrite length_app; lia).
    rewrite firstn_all2 by (rewrite length_app; lia).
    simpl. now rewrite app_nil_r. }
  rewrite firstn_app in Hf.
  replace (i + length pat - length x) with 0 in Hf by lia.
  simpl in Hf. rewrite app_nil_r in Hf.
  rewrite app_assoc, <- Hf. symmetry. apply firstn_skipn.
Qed.

Lemma occurs_at_bound (pat s : jsstring) (i : nat) :
  occurs_at pat s i -> i + length pat <= length s.
Proof.
  intros (pre & post & -> & <-). rewrite !length_app. lia.
Qed.

Lemma substring_0 (s : jsstring) (i : nat) :
  substring s 0 (Z.of_nat i) = firstn i s.
Proof.
  unfold substring, clamp. simpl Z.to_nat. rewrite Nat2Z.id.
  rewrite Nat.min_0_l, Nat.max_0_l, Nat.sub_0_r. simpl skipn.
  destruct (Nat.le_ge_cases i (length s)) as [H|H].
  - now rewrite Nat.min_l.
  - rewrite Nat.min_r by exact H. now rewrite !firstn_all2 by lia.
Qed.

Lemma substring_from_skipn (s : jsstring) (i n : nat) :
  substring_from s (Z.of_nat i + Z.of_nat n) = skipn (i + n) s.
Proof.
  unfold substring_from, substring, clamp.
  rewrite <- Nat2Z.inj_add, !Nat2Z.id, Nat.min_id.
  destruct (Nat.le_ge_cases (i + n) (length s)) as [H|H].
  - rewrite (Nat.min_l (i + n)) by exact H.
    rewrite Nat.min_l, Nat.max_r by exact H.
    apply firstn_all2. rewrite length_skipn. lia.
  - rewrite (Nat.min_r (i + n)) by exact H.
    rewrite Nat.min_id, Nat.max_id, Nat.sub_diag. simpl.
    symmetry. apply skipn_all2. exact H.
Qed.

(* ================================================================== *)
(** ** [JSON.parse] always answers *)
(* ================================================================== *)

Lemma skip_ws_length (s : jsstring) : length (skip_ws s) <= length s.
Proof.
  induction s as [|c s IH]; simpl; [lia|].
  destruct (is_json_ws c); simpl; lia.
Qed.

Lemma digits_length (s : jsstring) : length (snd (digits s)) <= length s.
Proof.
  induction s as [|c s IH]; simpl; [lia|].
  destruct (is_digit c); [|simpl; lia].
  destruct (digits s) as [ds r]. simpl in *. lia.
Qed.

(** A string literal is read without recursion budget, and reads at least
    its closing quote. *)
Lemma parse_chars_shorter (n : nat) :
  forall s acc : jsstring,
  length s <= n ->
  parse_chars s acc <> OutOfFuel
  /\ forall str r, parse_chars s acc = Ok str r -> length r < length s.
Proof.
  induction n as [n IH] using lt_wf_ind. intros s acc Hn.
  destruct s as [|c s1]; [split; [discriminate | intros; discriminate]|].
  cbn [parse_chars]. destruct (c =? 34)%N.
  { split; [discriminate|]. intros str r [= _ <-]. simpl. lia. }
  destruct (c =? 92)%N.
  - destruct s1 as [|e s2]; [split; [discriminate | intros; discriminate]|].
    destruct (e =? 117)%N.
    + destruct s2 as [|h1 [|h2 [|h3 [|h4 s3]]]];
        try (split; [discriminate | intros; discriminate]).
      destruct (hex4 h1 h2 h3 h4);
        [|split; [discriminate | intros; discriminate]].
      destruct (IH (length s3)) with (s := s3) (acc := c0 :: acc) as [H1 H2];
        [simpl in Hn; lia | lia |].
      split; [exact H1|]. intros str r H. apply H2 in H. simpl. lia.
    + destruct (escape e);
        [|split; [discriminate | intros; discriminate]].
      destruct (IH (length s2)) with (s := s2) (acc := c0 :: acc) as [H1 H2];
        [simpl in Hn; lia | lia |].
      split; [exact H1|]. intros str r H. apply H2 in H. simpl. lia.
  - destruct (c <? 32)%N; [split; [discriminate | intros; discriminate]|].
    destruct (IH (length s1)) with (s := s1) (acc := c :: acc) as [H1 H2];
      [simpl in Hn; lia | lia |].
    split; [exact H1|]. intros str r H. apply H2 in H. simpl. lia.
Qed.

Lemma parse_number_shorter (s : jsstring) :
  parse_number s <> OutOfFuel
  /\ forall l r, parse_number s = Ok l r -> length r < length s.
Proof.
  unfold parse_number.
  set (p := match s with
            | [] => ([], s)
            | c :: r => if (c =? 45)%N then ([c], r) else ([], s)
            end).
  assert (Hp : length (snd p) <= length s).
  { subst p. destruct s as [|c r]; simpl; [lia|].
    destruct (c =? 45)%N; simpl; lia. }
  destruct p as [sign s1]. simpl in Hp.
  destruct s1 as [|d r]; [split; [discriminate | intros; discriminate]|].
  destruct (negb (is_digit d)); [split; [discriminate | intros; discriminate]|].
  set (q := if (d =? 48)%N then ([d], r)
            else let (ds, r') := digits r in (d :: ds, r')).
  assert (Hq : length (snd q) <= length r).
  { subst q. destruct (d =? 48)%N; simpl; [lia|].
    pose proof (digits_length r). destruct (digits r). simpl in *. lia. }
  destruct q as [int s2]. simpl in Hq.
  set (f := match s2 with
            | [] => Some ([], s2)
            | p :: r2 =>
                if (p =? 46)%N
                then let (ds, r3) := digits r2 in
                     match ds with
                     | [] => None
                     | _ :: _ => Some (p :: ds, r3)
                     end
                else Some ([], s2)
            end).
  assert (Hf : forall fr s3, f = Some (fr, s3) -> length s3 <= length s2).
  { subst f. intros fr s3. destruct s2 as [|p r2]; [intros [= _ <-]; lia|].
    destruct (p =? 46)%N; [|intros [= _ <-]; lia].
    pose proof (digits_length r2). destruct (digits r2) as [ds r3].
    destruct ds; [discriminate|]. intros [= _ <-]. simpl in *. lia. }
  destruct f as [[fr s3]|]; [|split; [discriminate | intros; discriminate]].
  specialize (Hf _ _ eq_refl). simpl in Hp.
  destruct s3 as [|e r4].
  { split; [discriminate|]. intros l r0 [= _ <-]. simpl in *. lia. }
  destruct ((e =? 101) || (e =? 69))%N.
  - set (g := match r4 with
              | [] => ([], r4)
              | g :: r' =>
                  if ((g =? 43) || (g =? 45))%N then ([g], r') else ([], r4)
              end).
    assert (Hg : length (snd g) <= length r4).
    { subst g. destruct r4 as [|g r']; simpl; [lia|].
      destruct ((g =? 43) || (g =? 45))%N; simpl; lia. }
    destruct g as [esign r5]. simpl in Hg.
    pose proof (digits_length r5) as Hd. destruct (digits r5) as [ds r6].
    destruct ds; [split; [discriminate | intros; discriminate]|].
    split; [discriminate|]. intros l r0 [= _ <-]. simpl in *. lia.
  - split; [discriminate|]. intros l r0 [= _ <-]. simpl in *. lia.
Qed.

Ltac fails := split; [discriminate | intros; discriminate].

(** With a budget above twice the length of the input the parsers never
    run out of it, and a value read leaves less input than there was. *)
Lemma parse_fuel (fuel : nat) :
  (forall s, 2 * length s + 1 <= fuel ->
     parse_value fuel s <> OutOfFuel
     /\ forall v r, parse_value fuel s = Ok v r -> length r < length s)
  /\ (forall s acc, 2 * length s + 2 <= fuel ->
        parse_elements fuel s acc <> OutOfFuel
        /\ forall v r, parse_elements fuel s acc = Ok v r ->
                       length r < length s)
  /\ (forall s acc, 2 * length s + 2 <= fuel ->
        parse_members fuel s acc <> OutOfFuel
        /\ forall v r, parse_members fuel s acc = Ok v r ->
                       length r < length s).
Proof.
  induction fuel as [|fuel (IHv & IHe & IHm)].
  { repeat split; intros; lia. }
  split; [|split].
  - (* parse_value *)
    intros s Hfuel. cbn [parse_value].
    pose proof (skip_ws_length s) as Hs.
    destruct (skip_ws s) as [|c r]; [fails|]. simpl in Hs.
    destruct (c =? 123)%N.
    { pose proof (skip_ws_length r) as Hr.
      destruct (skip_ws r) as [|c' r']; [fails|]. simpl in Hr.
      destruct (c' =? 125)%N.
      - split; [discriminate|]. intros v r0 [= _ <-]. lia.
      - destruct (IHm r []) as [H1 H2]; [lia|].
        split; [exact H1|]. intros v r0 H. apply H2 in H. lia. }
    destruct (c =? 91)%N.
    { pose proof (skip_ws_length r) as Hr.
      destruct (skip_ws r) as [|c' r']; [fails|]. simpl in Hr.
      destruct (c' =? 93)%N.
      - split; [discriminate|]. intros v r0 [= _ <-]. lia.
      - destruct (IHe r []) as [H1 H2]; [lia|].
        split; [exact H1|]. intros v r0 H. apply H2 in H. lia. }
    destruct (c =? 34)%N.
    { destruct (@parse_chars_shorter (length r) r [] (le_n _)) as [H1 H2].
      destruct (parse_chars r []) as [str r'| |]; [|fails|congruence].
      split; [discriminate|]. intros v r0 [= _ <-].
      specialize (H2 _ _ eq_refl). lia. }
    assert (Hk : forall k, length (skipn (S k) (c :: r)) < length s).
    { intros k. rewrite length_skipn. simpl. lia. }
    destruct (startsWith (c :: r) (lit "true")).
    { split; [discriminate|]. intros v r0 [= _ <-]. exact (Hk 3). }
    destruct (startsWith (c :: r) (lit "false")).
    { split; [discriminate|]. intros v r0 [= _ <-]. exact (Hk 4). }
    destruct (startsWith (c :: r) (lit "null")).
    { split; [discriminate|]. intros v r0 [= _ <-]. exact (Hk 3). }
    destruct (parse_number_shorter (c :: r)) as [H1 H2].
    destruct (parse_number (c :: r)) as [l r'| |]; [|fails|congruence].
    split; [discriminate|]. intros v r0 [= _ <-].
    specialize (H2 _ _ eq_refl). simpl in H2. lia.
  - (* parse_elements *)
    intros s acc Hfuel. cbn [parse_elements].
    destruct (IHv s) as [H1 H2]; [lia|].
    destruct (parse_value fuel s) as [v r| |]; [|fails|congruence].
    specialize (H2 _ _ eq_refl).
    pose proof (skip_ws_length r) as Hr.
    destruct (skip_ws r) as [|d r']; [fails|]. simpl in Hr.
    destruct (d =? 44)%N.
    { destruct (IHe r' (v :: acc)) as [E1 E2]; [lia|].
      split; [exact E1|]. intros v0 r0 H. apply E2 in H. lia. }
    destruct (d =? 93)%N; [|fails].
    split; [discriminate|]. intros v0 r0 [= _ <-]. lia.
  - (* parse_members *)
    intros s acc Hfuel. cbn [parse_members].
    pose proof (skip_ws_length s) as Hs.
    destruct (skip_ws s) as [|q r]; [fails|]. simpl in Hs.
    destruct (q =? 34)%N; [|fails].
    destruct (@parse_chars_shorter (length r) r [] (le_n _)) as [C1 C2].
    destruct (parse_chars r []) as [k r1| |]; [|fails|congruence].
    specialize (C2 _ _ eq_refl).
    pose proof (skip_ws_length r1) as Hr1.
    destruct (skip_ws r1) as [|col r2]; [fails|]. simpl in Hr1.
    destruct (col =? 58)%N; [|fails].
    destruct (IHv r2) as [H1 H2]; [lia|].
    destruct (parse_value fuel r2) as [v r3| |]; [|fails|congruence].
    specialize (H2 _ _ eq_refl).
    pose proof (skip_ws_length r3) as Hr3.
    destruct (skip_ws r3) as [|d r4]; [fails|]. simpl in Hr3.
    destruct (d =? 44)%N.
    { destruct (IHm r4 ((k, v) :: acc)) as [E1 E2]; [lia|].
      split; [exact E1|]. intros v0 r0 H. apply E2 in H. lia. }
    destruct (d =? 125)%N; [|fails].
    split; [discriminate|]. intros v0 r0 [= _ <-]. lia.
Qed.

(** [JSON_parse] never answers [None] for lack of budget. *)
Lemma parse_value_fuel (text : jsstring) :
  parse_value (S (2 * length text)) text <> OutOfFuel.
Proof.
  apply (proj1 (parse_fuel (S (2 * length text)))). lia.
Qed.

(* ================================================================== *)
(** ** Facts about segments *)
(* ================================================================== *)

Lemma DELIMITER_length : length DELIMITER = 24.
Proof. reflexivity. Qed.

#[local] Opaque DELIMITER.

(** The first delimiter of [seg ++ DELIMITER ++ rest] is the one written. *)
Lemma search_segment (seg rest : jsstring) :
  first_delimiter_after seg ->
  search (seg ++ DELIMITER ++ rest) DELIMITER = Some (length seg).
Proof.
  intros Hseg. apply search_Some. split.
  - now exists seg, rest.
  - intros j Hj Hocc. apply (Hseg j Hj).
    rewrite app_assoc in Hocc.
    apply occurs_at_prefix in Hocc; [exact Hocc|].
    rewrite length_app. lia.
Qed.

(** A text with a delimiter splits at its first one. *)
Lemma search_split (b : jsstring) (i : nat) :
  search b DELIMITER = Some i ->
  exists seg rest,
    b = seg ++ DELIMITER ++ rest /\ length seg = i /\ first_delimiter_after seg.
Proof.
  intros H. apply search_Some in H as [(pre & post & -> & Hlen) Hmin].
  exists pre, post. split; [reflexivity|]. split; [exact Hlen|].
  intros j Hj Hocc. apply (Hmin j); [lia|].
  rewrite app_assoc. now apply occurs_at_app_l.
Qed.

Lemma delimiter_free_includes (t : jsstring) :
  delimiter_free t <-> includes t DELIMITER = false.
Proof. symmetry. apply includes_false. Qed.

Lemma Segmented_join (text : jsstring) (segs : list jsstring) (t : jsstring) :
  Segmented text segs t -> text = join segs t.
Proof. induction 1; simpl; congruence. Qed.

Lemma Segmented_trailing_free (text : jsstring) (segs : list jsstring)
  (t : jsstring) :
  Segmented text segs t -> delimiter_free t.
Proof. induction 1; assumption. Qed.

Lemma Segmented_segments_first (text : jsstring) (segs : list jsstring)
  (t : jsstring) :
  Segmented text segs t -> Forall first_delimiter_after segs.
Proof. induction 1; constructor; assumption. Qed.

(** Every text has a segmentation. *)
Lemma Segmented_exists (text : jsstring) :
  exists segs t, Segmented text segs t.
Proof.
  remember (length text) as n eqn:Hn.
  revert text Hn. induction n as [n IH] using lt_wf_ind. intros text Hn.
  destruct (search text DELIMITER) as [i|] eqn:E.
  - apply search_split in E as (seg & rest & -> & Hlen & Hseg).
    destruct (IH (length rest)) with (text := rest) as (segs & t & Hs).
    + subst n. rewrite !length_app, DELIMITER_length. lia.
    + reflexivity.
    + exists (seg :: segs), t. now constructor.
  - exists [], text. constructor. unfold delimiter_free. now apply search_None.
Qed.

(** The segmentation of a text is unique. *)
Lemma Segmented_unique (text : jsstring) (segs segs' : list jsstring)
  (t t' : jsstring) :
  Segmented text segs t -> Segmented text segs' t' -> segs = segs' /\ t = t'.
Proof.
  intros H. revert segs' t'.
  induction H as [t Ht | seg rest segs t Hseg Hrest IH]; intros segs' t' H'.
  - inversion H' as [t0 Ht0 | seg' rest' segs0 t0 Hseg' Hrest']; subst.
    + now split.
    + exfalso. apply (Ht (length seg')). now exists seg', rest'.
  - inversion H' as [t0 Ht0 E1 | seg' rest' segs0 t0 Hseg' Hrest' E1]; subst.
    + exfalso. apply (Ht0 (length seg)). now exists seg, rest.
    + pose proof (search_segment rest Hseg) as S1.
      pose proof (search_segment rest' Hseg') as S2.
      rewrite <- E1 in S1. rewrite S2 in S1. injection S1 as Hlen.
      apply app_same_length in E1 as [-> E1]; [|exact Hlen].
      apply app_inv_head in E1. subst rest'.
      destruct (IH _ _ Hrest') as [-> ->]. now split.
Qed.

(** Text appended after a segmented one goes to its trailing content. *)
Lemma Segmented_app (x y : jsstring) (segs segs' : list jsstring)
  (t t' : jsstring) :
  Segmented x segs t ->
  Segmented (t ++ y) segs' t' ->
  Segmented (x ++ y) (segs ++ segs') t'.
Proof.
  intros H Hy. induction H as [t Ht | seg rest segs t Hseg Hrest IH].
  - exact Hy.
  - rewrite <- !app_assoc. simpl. constructor; [exact Hseg|]. now apply IH.
Qed.

(* ================================================================== *)
(** ** The loops of the generator *)
(* ================================================================== *)

Lemma while_loop_free (fuel : nat) (b : jsstring) :
  delimiter_free b -> while_loop fuel b = ([], b).
Proof.
  intros H. apply delimiter_free_includes in H.
  destruct fuel; simpl; [reflexivity | now rewrite H].
Qed.

Lemma while_loop_segment (fuel : nat) (seg rest : jsstring) :
  first_delimiter_after seg ->
  while_loop (S fuel) (seg ++ DELIMITER ++ rest) =
  (Split rest :: segment_effects seg ++ fst (while_loop fuel rest),
   snd (while_loop fuel rest)).
Proof.
  intros Hseg. cbn [while_loop].
  pose proof (search_segment rest Hseg) as Hs.
  rewrite includes_search. unfold indexOf. rewrite Hs.
  rewrite substring_0, substring_from_skipn.
  rewrite firstn_app, Nat.sub_diag, firstn_all. simpl firstn. rewrite app_nil_r.
  rewrite app_assoc, skipn_app.
  rewrite skipn_all2 by (rewrite length_app; lia).
  rewrite length_app.
  replace (length seg + length DELIMITER - (length seg + length DELIMITER))
    with 0 by lia.
  simpl skipn. change ([] ++ rest) with rest. unfold segment_effects.
  destruct (while_loop fuel rest) as [r fin]. reflexivity.
Qed.

(** With fuel above the length of the buffer the loop runs to its end: it
    goes through the segments of the buffer and leaves the trailing text. *)
Lemma while_loop_Segmented (b : jsstring) (segs : list jsstring) (t : jsstring) :
  Segmented b segs t ->
  forall fuel, length b < fuel -> while_loop fuel b = (drained segs t, t).
Proof.
  induction 1 as [t Ht | seg rest segs t Hseg Hrest IH]; intros fuel Hfuel.
  - now apply while_loop_free.
  - destruct fuel as [|fuel]; [lia|].
    rewrite while_loop_segment by exact Hseg.
    rewrite IH.
    + simpl. now rewrite <- (Segmented_join Hrest).
    + rewrite !length_app, DELIMITER_length in Hfuel. lia.
Qed.

(** The loop stops because no delimiter is left, not for lack of fuel. *)
Lemma while_loop_fuel (b : jsstring) (fuel : nat) :
  length b < fuel -> includes (snd (while_loop fuel b)) DELIMITER = false.
Proof.
  intros Hfuel. destruct (Segmented_exists b) as (segs & t & H).
  rewrite (while_loop_Segmented H Hfuel). simpl.
  apply delimiter_free_includes. exact (Segmented_trailing_free H).
Qed.

Lemma effects_app (o1 o2 : list Obs) :
  effects (o1 ++ o2) = effects o1 ++ effects o2.
Proof.
  induction o1 as [|o o1 IH]; [reflexivity|].
  destruct o; simpl; now rewrite IH.
Qed.

Lemma effects_try_parse (label text : jsstring) :
  effects (try_parse label text) = try_parse label text.
Proof. unfold try_parse. now destruct (JSON_parse text). Qed.

Lemma effects_segment_effects (seg : jsstring) :
  effects (segment_effects seg) = segment_effects seg.
Proof.
  unfold segment_effects. destruct (truthy (trim seg)); [|reflexivity].
  apply effects_try_parse.
Qed.

Lemma effects_finalization (b : jsstring) :
  effects (finalization b) = finalization b.
Proof.
  unfold finalization. destruct (truthy (trim b)); [|reflexivity].
  apply effects_try_parse.
Qed.

Lemma effects_drained (segs : list jsstring) (t : jsstring) :
  effects (drained segs t) = flat_map segment_effects segs.
Proof.
  induction segs as [|seg segs IH]; [reflexivity|].
  simpl. now rewrite effects_app, effects_segment_effects, IH.
Qed.

(** The effects of the chunk loop depend on the chunks only through the
    text they add up to. *)
Lemma for_await_effects (cs : list jsstring) :
  forall (b : jsstring) (segs : list jsstring) (t : jsstring),
  delimiter_free b ->
  Segmented (b ++ concat cs) segs t ->
  effects (fst (for_await cs b)) = flat_map segment_effects segs
  /\ snd (for_await cs b) = t.
Proof.
  induction cs as [|c cs IH]; intros b segs t Hb H.
  - simpl in *. rewrite app_nil_r in H.
    destruct (Segmented_unique H (Segmented_trailing Hb)) as [-> ->].
    now split.
  - cbn [for_await concat].
    destruct (Segmented_exists (b ++ c)) as (segs1 & t1 & H1).
    rewrite (while_loop_Segmented H1) by lia.
    pose proof (Segmented_trailing_free H1) as Ht1.
    destruct (Segmented_exists (t1 ++ concat cs)) as (segs2 & t2 & H2).
    destruct (IH t1 segs2 t2 Ht1 H2) as [IHe IHt].
    pose proof (Segmented_app _ H1 H2) as H12.
    rewrite <- app_assoc in H12.
    destruct (Segmented_unique H H12) as [-> ->].
    destruct (for_await cs t1) as [obs2 final]. simpl in *.
    rewrite effects_app, effects_drained, IHe, flat_map_app.
    now split.
Qed.

(** The effects of a whole run, from the segmentation of the text. *)
Lemma run_effects (cs : list jsstring) (segs : list jsstring) (t : jsstring) :
  Segmented (concat cs) segs t ->
  generateQuizQuestionsStream (completes cs)
  = (fst (for_await cs []) ++ finalization t, Returned)
  /\ effects (run cs) = flat_map segment_effects segs ++ finalization t.
Proof.
  intros H.
  assert (Hfree : delimiter_free []).
  { intros i Hocc. apply occurs_at_bound in Hocc.
    rewrite DELIMITER_length in Hocc. simpl in Hocc. lia. }
  destruct (for_await_effects cs (b := []) Hfree H) as [He Ht].
  unfold run, generateQuizQuestionsStream, completes. simpl.
  destruct (for_await cs []) as [obs final]. simpl in *. subst final.
  split; [reflexivity|].
  now rewrite effects_app, effects_finalization, He.
Qed.

(* ================================================================== *)
(** ** Records and parse attempts of a run *)
(* ================================================================== *)

Lemma records_app (o1 o2 : list Obs) :
  records (o1 ++ o2) = records o1 ++ records o2.
Proof.
  induction o1 as [|o o1 IH]; [reflexivity|].
  destruct o; simpl; now rewrite IH.
Qed.

Lemma attempts_app (o1 o2 : list Obs) :
  attempts (o1 ++ o2) = attempts o1 ++ attempts o2.
Proof.
  induction o1 as [|o o1 IH]; [reflexivity|].
  destruct o; simpl; now rewrite IH.
Qed.

Lemma console_errors_app (o1 o2 : list Obs) :
  console_errors (o1 ++ o2) = console_errors o1 ++ console_errors o2.
Proof.
  induction o1 as [|o o1 IH]; [reflexivity|].
  destruct o; simpl; now rewrite IH.
Qed.

Lemma records_effects (obs : list Obs) : records (effects obs) = records obs.
Proof.
  induction obs as [|o obs IH]; [reflexivity|].
  destruct o; simpl; now rewrite ?IH.
Qed.

Lemma attempts_effects (obs : list Obs) : attempts (effects obs) = attempts obs.
Proof.
  induction obs as [|o obs IH]; [reflexivity|].
  destruct o; simpl; now rewrite ?IH.
Qed.

Lemma console_errors_effects (obs : list Obs) :
  console_errors (effects obs) = console_errors obs.
Proof.
  induction obs as [|o obs IH]; [reflexivity|].
  destruct o; simpl; now rewrite ?IH.
Qed.

(** [JSON.parse] throws on the empty text. *)
Lemma JSON_parse_empty : JSON_parse [] = None.
Proof. reflexivity. Qed.

Lemma truthy_false (s : jsstring) : truthy s = false -> s = [].
Proof. destruct s; [reflexivity | discriminate]. Qed.

(** A blank segment has no record. *)
Lemma record_of_blank (seg : jsstring) : blank seg = true -> record_of seg = None.
Proof.
  unfold blank, record_of. intros H. apply negb_true_iff, truthy_false in H.
  rewrite H. apply JSON_parse_empty.
Qed.

Lemma records_try_parse (label text : jsstring) :
  records (try_parse label text) = somes [JSON_parse text].
Proof. unfold try_parse. simpl. now destruct (JSON_parse text). Qed.

Lemma records_segment_effects (seg : jsstring) :
  records (segment_effects seg) = somes [record_of seg].
Proof.
  unfold segment_effects. destruct (truthy (trim seg)) eqn:E.
  - apply records_try_parse.
  - rewrite record_of_blank; [reflexivity|]. unfold blank. now rewrite E.
Qed.

Lemma records_finalization (t : jsstring) :
  records (finalization t) = somes [record_of t].
Proof.
  unfold finalization. destruct (truthy (trim t)) eqn:E.
  - apply records_try_parse.
  - rewrite record_of_blank; [reflexivity|]. unfold blank. now rewrite E.
Qed.

Lemma attempts_segment_effects (seg : jsstring) :
  attempts (segment_effects seg) = filter truthy [trim seg].
Proof.
  unfold segment_effects, try_parse. simpl.
  destruct (truthy (trim seg)); [|reflexivity].
  simpl. now destruct (JSON_parse (trim seg)).
Qed.

Lemma attempts_finalization (t : jsstring) :
  attempts (finalization t) = filter truthy [trim t].
Proof.
  unfold finalization, try_parse. simpl.
  destruct (truthy (trim t)); [|reflexivity].
  simpl. now destruct (JSON_parse (trim t)).
Qed.

Lemma somes_app (A : Type) (l1 l2 : list (option A)) :
  somes (l1 ++ l2) = somes l1 ++ somes l2.
Proof.
  induction l1 as [|[a|] l1 IH]; simpl; now rewrite ?IH.
Qed.

Lemma records_flat_map (segs : list jsstring) :
  records (flat_map segment_effects segs) = somes (map record_of segs).
Proof.
  induction segs as [|seg segs IH]; [reflexivity|].
  cbn [flat_map map]. rewrite records_app, records_segment_effects, IH.
  simpl. now destruct (record_of seg).
Qed.

Lemma attempts_flat_map (segs : list jsstring) :
  attempts (flat_map segment_effects segs) = filter truthy (map trim segs).
Proof.
  induction segs as [|seg segs IH]; [reflexivity|].
  cbn [flat_map map]. rewrite attempts_app, attempts_segment_effects, IH.
  simpl. now destruct (truthy (trim seg)).
Qed.

(** The records of a run are those of the segments of the whole text, the
    trailing one included, in order. *)
Lemma run_records (cs : list jsstring) (segs : list jsstring) (t : jsstring) :
  Segmented (concat cs) segs t ->
  records (run cs) = somes (map record_of (segs ++ [t])).
Proof.
  intros H. destruct (run_effects cs H) as [_ He].
  rewrite <- records_effects, He, records_app, records_flat_map,
    records_finalization, map_app, somes_app. reflexivity.
Qed.

(** The parse attempts of a run are the trimmed segments that are not
    empty, in order. *)
Lemma run_attempts (cs : list jsstring) (segs : list jsstring) (t : jsstring) :
  Segmented (concat cs) segs t ->
  attempts (run cs) = filter truthy (map trim (segs ++ [t])).
Proof.
  intros H. destruct (run_effects cs H) as [_ He].
  rewrite <- attempts_effects, He, attempts_app, attempts_flat_map,
    attempts_finalization, map_app, filter_app. reflexivity.
Qed.

Lemma somes_Forall2 (A B : Type) (f : A -> option B) (l : list A)
  (qs : list B) :
  Forall2 (fun a q => f a = Some q) l qs -> somes (map f l) = qs.
Proof.
  induction 1 as [|a q l qs Ha _ IH]; [reflexivity|].
  simpl. now rewrite Ha, IH.
Qed.

Lemma check_segment_first (seg : jsstring) :
  check_segment seg = true -> first_delimiter_after seg.
Proof.
  unfold check_segment. destruct (search (seg ++ DELIMITER) DELIMITER) eqn:E;
    [|discriminate].
  intros H. apply Nat.eqb_eq in H. subst n.
  apply search_Some in E as [_ Hmin]. exact Hmin.
Qed.

Lemma Segmented_check (segs : list jsstring) (t : jsstring) :
  forallb check_segment segs = true ->
  includes t DELIMITER = false ->
  Segmented (join segs t) segs t.
Proof.
  intros Hs Ht. induction segs as [|seg segs IH]; simpl in *.
  - constructor. now apply delimiter_free_includes.
  - apply andb_true_iff in Hs as [Hseg Hs].
    constructor; [now apply check_segment_first | now apply IH].
Qed.

(* ================================================================== *)
(** ** Properties of the streaming parser *)
(* ================================================================== *)

(** Proves a segmentation of a concrete text by computation. *)
Ltac segmented :=
  match goal with
  | |- Segmented ?text ?segs ?t =>
      change text with (join segs t);
      apply Segmented_check; vm_compute; reflexivity
  end.

(** The scenarios of the specification, run on the model. *)
Example scenario_A :
  records (run [json "{'question':'Q1'}"; DELIMITER;
                json "{'question':'Q2'}"; DELIMITER])
  = [JObject [(lit "question", JString (lit "Q1"))];
     JObject [(lit "question", JString (lit "Q2"))]]
  /\ snd (for_await [json "{'question':'Q1'}"; DELIMITER;
                     json "{'question':'Q2'}"; DELIMITER] []) = [].
Proof. split; reflexivity. Qed.

Example scenario_B :
  run [json "garbage-not-json"; DELIMITER; json "{'question':'Q2'}"]
  = [Appended (json "garbage-not-json") (json "garbage-not-json");
     Appended DELIMITER (json "garbage-not-json" ++ DELIMITER);
     Split [];
     ParseCall (json "garbage-not-json");
     ConsoleError (lit "Failed to parse JSON chunk:") (json "garbage-not-json");
     Appended (json "{'question':'Q2'}") (json "{'question':'Q2'}");
     ParseCall (json "{'question':'Q2'}");
     Yield (JObject [(lit "question", JString (lit "Q2"))])].
Proof. reflexivity. Qed.

Example scenario_C :
  records (run [json "{'question':'Q1'}---QML_QUIZ";
                json "_DELIMITER---{'question':'Q2'}"])
  = [JObject [(lit "question", JString (lit "Q1"))];
     JObject [(lit "question", JString (lit "Q2"))]].
Proof. reflexivity. Qed.

Example scenario_D : generateQuizQuestionsStream (completes []) = ([], Returned).
Proof. reflexivity. Qed.

(** C1 (fault isolation).  Let the text of the chunks consist of segments
    (the delimited ones and the trailing content, which may be left out
    when it is blank) of which one, [bad], has no record and every other
    one parses.  Then the generator returns normally, and the consumer
    receives the records of the other segments, those before and those
    after [bad], in order: one record less than there are segments. *)
Theorem fault_isolation
  (cs : list jsstring) (segs : list jsstring) (t : jsstring)
  (pre : list jsstring) (bad : jsstring) (post : list jsstring)
  (qs1 qs2 : list JSValue) :
  Segmented (concat cs) segs t ->
  (segs ++ [t] = pre ++ bad :: post
   \/ (segs = pre ++ bad :: post /\ blank t = true)) ->
  JSON_parse (trim bad) = None ->
  Forall2 (fun seg q => JSON_parse (trim seg) = Some q) pre qs1 ->
  Forall2 (fun seg q => JSON_parse (trim seg) = Some q) post qs2 ->
  snd (generateQuizQuestionsStream (completes cs)) = Returned
  /\ records (run cs) = qs1 ++ qs2
  /\ length (records (run cs)) = length (pre ++ bad :: post) - 1.
Proof.
  intros Hseg Hsplit Hbad Hpre Hpost.
  assert (Hrec : records (run cs) = qs1 ++ qs2).
  { rewrite (run_records cs Hseg).
    assert (Hmid : somes (map record_of (pre ++ bad :: post)) = qs1 ++ qs2).
    { rewrite map_app, somes_app. cbn [map somes].
      unfold record_of. rewrite Hbad.
      now rewrite (somes_Forall2 _ Hpre), (somes_Forall2 _ Hpost). }
    destruct Hsplit as [E | [E Hblank]].
    - now rewrite E.
    - rewrite map_app, somes_app. cbn [map somes].
      rewrite (record_of_blank _ Hblank), app_nil_r, E. exact Hmid. }
  split; [|split].
  - destruct (run_effects cs Hseg) as [E _]. now rewrite E.
  - exact Hrec.
  - rewrite Hrec, !length_app. cbn [length].
    apply Forall2_length in Hpre, Hpost. lia.
Qed.

Lemma fault_isolation_witness :
  let cs := [json "garbage-not-json"; DELIMITER; json "{'question':'Q2'}";
             DELIMITER] in
  snd (generateQuizQuestionsStream (completes cs)) = Returned
  /\ records (run cs) = [] ++ [JObject [(lit "question", JString (lit "Q2"))]]
  /\ length (records (run cs)) = 2 - 1.
Proof.
  apply (@fault_isolation
           [json "garbage-not-json"; DELIMITER; json "{'question':'Q2'}";
            DELIMITER]
           [json "garbage-not-json"; json "{'question':'Q2'}"] []
           [] (json "garbage-not-json") [json "{'question':'Q2'}"]
           [] [JObject [(lit "question", JString (lit "Q2"))]]).
  - segmented.
  - right. split; reflexivity.
  - reflexivity.
  - constructor.
  - constructor; [reflexivity | constructor].
Defined.

(** C2, as stated, fails: the object [{}] has none of the fields of a
    [QuizQuestion], and the generator yields it. *)
Lemma shape_check_counterexample :
  records (run [json "{}"]) = [JObject []]
  /\ has_QuizQuestion_shape (JObject []) = false.
Proof. split; reflexivity. Qed.

(** C2 (amended).  The only check of a candidate segment is [JSON.parse]:
    the records of a run are exactly the values of the trimmed segments
    that are JSON text, whatever their shape, and a segment whose trimmed
    text is not JSON text (the blank ones among them) yields nothing. *)
Theorem emitted_iff_json
  (cs : list jsstring) (segs : list jsstring) (t : jsstring) :
  Segmented (concat cs) segs t ->
  records (run cs) = somes (map record_of (segs ++ [t]))
  /\ forall q, In q (records (run cs)) <->
               exists seg, In seg (segs ++ [t])
                           /\ JSON_parse (trim seg) = Some q.
Proof.
  intros H. pose proof (run_records cs H) as E. split; [exact E|].
  intros q. rewrite E. generalize (segs ++ [t]) as l.
  induction l as [|seg l IH]; simpl.
  - split; [tauto | intros (seg & [] & _)].
  - unfold record_of at 1. destruct (JSON_parse (trim seg)) as [q'|] eqn:Eq.
    + simpl. rewrite IH. split.
      * intros [-> | (seg' & Hin & Hp)].
        -- exists seg. now split; [left|].
        -- exists seg'. now split; [right|].
      * intros (seg' & [-> | Hin] & Hp).
        -- left. congruence.
        -- right. now exists seg'.
    + rewrite IH. split.
      * intros (seg' & Hin & Hp). exists seg'. now split; [right|].
      * intros (seg' & [-> | Hin] & Hp); [congruence | now exists seg'].
Qed.

Lemma emitted_iff_json_witness :
  let cs := [json "{}"; DELIMITER; json "oops"] in
  records (run cs) = somes (map record_of ([json "{}"] ++ [json "oops"]))
  /\ forall q, In q (records (run cs)) <->
               exists seg, In seg ([json "{}"] ++ [json "oops"])
                           /\ JSON_parse (trim seg) = Some q.
Proof.
  apply (@emitted_iff_json [json "{}"; DELIMITER; json "oops"]
           [json "{}"] (json "oops")).
  segmented.
Defined.

(** C3, as stated, fails: the text of the single chunk [DELIMITER] has one
    delimiter-separated segment (the empty one) and no trailing content,
    and the generator never calls [JSON.parse]. *)
Lemma parse_attempts_counterexample :
  exists cs segs t,
    Segmented (concat cs) segs t
    /\ length (attempts (run cs))
       <> length segs + (if blank t then 0 else 1).
Proof.
  exists [DELIMITER], [[]], []. split; [segmented|].
  vm_compute. discriminate.
Qed.

(** C3 (amended).  The generator calls [JSON.parse] once for every
    delimiter-separated segment that is not blank, and once more when the
    trailing content is not blank, however the text is cut into chunks.
    A blank segment has no effect at all: no call, no record, no error. *)
Theorem parse_attempts_count
  (cs : list jsstring) (segs : list jsstring) (t : jsstring) :
  Segmented (concat cs) segs t ->
  length (attempts (run cs))
  = length (filter (fun seg => negb (blank seg)) segs)
    + (if blank t then 0 else 1)
  /\ effects (run cs) = flat_map segment_effects segs ++ finalization t
  /\ forall seg, blank seg = true -> segment_effects seg = [].
Proof.
  intros H. split; [|split].
  - rewrite (run_attempts cs H), map_app, filter_app, length_app.
    f_equal.
    + clear H. induction segs as [|seg segs IH]; [reflexivity|].
      unfold blank in *. simpl. rewrite negb_involutive.
      destruct (truthy (trim seg)); simpl; now rewrite IH.
    + unfold blank. simpl. now destruct (truthy (trim t)).
  - exact (proj2 (run_effects cs H)).
  - intros seg Hb. unfold blank in Hb. apply negb_true_iff in Hb.
    unfold segment_effects. now rewrite Hb.
Qed.

Lemma parse_attempts_count_witness :
  let cs := [json "{}---QML_QUIZ"; json "_DELIMITER--"; json "-";
             DELIMITER; json " x"] in
  let segs := [json "{}"; json ""] in
  length (attempts (run cs))
  = length (filter (fun seg => negb (blank seg)) segs)
    + (if blank (json " x") then 0 else 1)
  /\ effects (run cs)
     = flat_map segment_effects segs ++ finalization (json " x")
  /\ forall seg, blank seg = true -> segment_effects seg = [].
Proof.
  apply (@parse_attempts_count
           [json "{}---QML_QUIZ"; json "_DELIMITER--"; json "-";
            DELIMITER; json " x"]
           [json "{}"; json ""] (json " x")).
  segmented.
Defined.

(** C4 (chunking does not matter).  Two chunk sequences that add up to the
    same text give the same records; the parse failures logged are the
    same too. *)
Theorem chunking_independent (cs1 cs2 : list jsstring) :
  concat cs1 = concat cs2 ->
  records (run cs1) = records (run cs2)
  /\ effects (run cs1) = effects (run cs2).
Proof.
  intros E. destruct (Segmented_exists (concat cs1)) as (segs & t & H1).
  assert (H2 : Segmented (concat cs2) segs t) by now rewrite <- E.
  assert (He : effects (run cs1) = effects (run cs2)).
  { rewrite (proj2 (run_effects cs1 H1)). symmetry.
    exact (proj2 (run_effects cs2 H2)). }
  split; [|exact He].
  now rewrite <- (records_effects (run cs1)), He, records_effects.
Qed.

Lemma chunking_independent_witness :
  let text := json "{'question':'Q1'}---QML_QUIZ_DELIMITER---[2]" in
  records (run [text]) = records (run (map (fun c => [c]) text))
  /\ effects (run [text]) = effects (run (map (fun c => [c]) text)).
Proof.
  apply (@chunking_independent
           [json "{'question':'Q1'}---QML_QUIZ_DELIMITER---[2]"]
           (map (fun c => [c])
              (json "{'question':'Q1'}---QML_QUIZ_DELIMITER---[2]"))).
  reflexivity.
Defined.

(** C5, as stated, fails in one point: a segment that is blank is never
    handed to [JSON.parse], so not every segment is parsed exactly once.
    The text of the chunks [" "], [DELIMITER], ["{}"] has the segment
    [" "] before its delimiter, and the only text parsed is ["{}"]. *)
Lemma parsed_once_counterexample :
  Segmented (concat [json " "; DELIMITER; json "{}"]) [json " "] (json "{}")
  /\ attempts (run [json " "; DELIMITER; json "{}"]) = [json "{}"]
  /\ attempts (run [json " "; DELIMITER; json "{}"])
     <> map trim ([json " "] ++ [json "{}"]).
Proof.
  split; [segmented|]. split; [reflexivity|]. vm_compute. discriminate.
Qed.

(** C5 (amended).  The texts handed to [JSON.parse] are the trimmed
    segments of the whole text that are not blank, in stream order, each
    exactly once and none twice (each segment ends at the first delimiter
    after its start; a blank segment is not parsed); the records are the
    values of the texts that parse, in the same order. *)
Theorem order_preserved
  (cs : list jsstring) (segs : list jsstring) (t : jsstring) :
  Segmented (concat cs) segs t ->
  attempts (run cs) = filter truthy (map trim (segs ++ [t]))
  /\ records (run cs) = somes (map JSON_parse (attempts (run cs)))
  /\ records (run cs) = somes (map record_of (segs ++ [t])).
Proof.
  intros H. pose proof (run_attempts cs H) as Ea.
  pose proof (run_records cs H) as Er.
  split; [exact Ea|]. split; [|exact Er].
  rewrite Er, Ea. generalize (segs ++ [t]) as l.
  induction l as [|seg l IH]; [reflexivity|].
  simpl. destruct (truthy (trim seg)) eqn:E.
  - simpl. unfold record_of at 1.
    destruct (JSON_parse (trim seg)); now rewrite IH.
  - rewrite record_of_blank; [exact IH|]. unfold blank. now rewrite E.
Qed.

Lemma order_preserved_witness :
  let cs := [json "{'question':'Q1'}"; DELIMITER; json " "; DELIMITER;
             json "[2]"; DELIMITER; json "3"] in
  let segs := [json "{'question':'Q1'}"; json " "; json "[2]"] in
  attempts (run cs) = filter truthy (map trim (segs ++ [json "3"]))
  /\ records (run cs) = somes (map JSON_parse (attempts (run cs)))
  /\ records (run cs) = somes (map record_of (segs ++ [json "3"])).
Proof.
  apply (@order_preserved
           [json "{'question':'Q1'}"; DELIMITER; json " "; DELIMITER;
            json "[2]"; DELIMITER; json "3"]
           [json "{'question':'Q1'}"; json " "; json "[2]"] (json "3")).
  segmented.
Defined.

(** C6 (finalization).  When the source has no more chunks the buffer holds
    the trailing content [t] of the text.  If [t] is blank nothing more
    happens; otherwise the trimmed [t] is handed to [JSON.parse] once, and
    its value is yielded, or the failure is logged and nothing is yielded.
    In every case the generator returns normally.  A stream with no chunk
    has no effect at all. *)
Theorem finalization_handling
  (cs : list jsstring) (segs : list jsstring) (t : jsstring) :
  Segmented (concat cs) segs t ->
  snd (for_await cs []) = t
  /\ generateQuizQuestionsStream (completes cs)
     = (fst (for_await cs []) ++ finalization t, Returned)
  /\ finalization t
     = (if blank t then []
        else match JSON_parse (trim t) with
             | Some q => [ParseCall (trim t); Yield q]
             | None => [ParseCall (trim t);
                        ConsoleError (lit "Failed to parse final JSON chunk:")
                          (trim t)]
             end)
  /\ generateQuizQuestionsStream (completes []) = ([], Returned).
Proof.
  intros H.
  assert (Hfree : delimiter_free []).
  { intros i Hocc. apply occurs_at_bound in Hocc.
    rewrite DELIMITER_length in Hocc. simpl in Hocc. lia. }
  split; [exact (proj2 (for_await_effects cs (b := []) Hfree H))|].
  split; [exact (proj1 (run_effects cs H))|].
  split; [|reflexivity].
  unfold finalization, blank, try_parse.
  destruct (truthy (trim t)); [|reflexivity].
  simpl. now destruct (JSON_parse (trim t)).
Qed.

Lemma finalization_handling_witness :
  let cs := [json "garbage-not-json"; DELIMITER; json " {'question':'Q2'} "] in
  let t := json " {'question':'Q2'} " in
  snd (for_await cs []) = t
  /\ generateQuizQuestionsStream (completes cs)
     = (fst (for_await cs []) ++ finalization t, Returned)
  /\ finalization t
     = (if blank t then []
        else match JSON_parse (trim t) with
             | Some q => [ParseCall (trim t); Yield q]
             | None => [ParseCall (trim t);
                        ConsoleError (lit "Failed to parse final JSON chunk:")
                          (trim t)]
             end)
  /\ generateQuizQuestionsStream (completes []) = ([], Returned).
Proof.
  apply (@finalization_handling
           [json "garbage-not-json"; DELIMITER; json " {'question':'Q2'} "]
           [json "garbage-not-json"] (json " {'question':'Q2'} ")).
  segmented.
Defined.

(* ================================================================== *)
(** ** The buffer *)
(* ================================================================== *)

Lemma join_trailing_app (segs : list jsstring) (b c : jsstring) :
  join segs b ++ c = join segs (b ++ c).
Proof.
  induction segs as [|seg segs IH]; [reflexivity|].
  simpl. now rewrite <- !app_assoc, IH.
Qed.

Lemma join_snoc (segs : list jsstring) (seg rest : jsstring) :
  join (segs ++ [seg]) rest = join segs (seg ++ DELIMITER ++ rest).
Proof.
  induction segs as [|s segs IH]; [reflexivity|].
  simpl. now rewrite IH.
Qed.

Lemma Consumed_append (R : jsstring) (n : nat) (b c : jsstring) :
  Consumed R n b -> Consumed (R ++ c) n (b ++ c).
Proof.
  intros (segs & Hlen & Hall & ->). exists segs.
  now rewrite join_trailing_app.
Qed.

Lemma Consumed_split (R : jsstring) (n : nat) (seg rest : jsstring) :
  Consumed R n (seg ++ DELIMITER ++ rest) ->
  first_delimiter_after seg ->
  Consumed R (S n) rest.
Proof.
  intros (segs & Hlen & Hall & ->) Hseg. exists (segs ++ [seg]).
  split; [rewrite length_app; simpl; lia|].
  split; [|now rewrite join_snoc].
  apply Forall_app. split; [exact Hall | now constructor].
Qed.

(** What follows the [n]-th consumed delimiter is determined by the text. *)
Lemma Consumed_unique (R : jsstring) (n : nat) (b b' : jsstring) :
  Consumed R n b -> Consumed R n b' -> b = b'.
Proof.
  intros (segs & Hlen & Hall & E) (segs' & Hlen' & Hall' & E').
  subst R n. revert segs' Hlen' Hall' E'.
  induction Hall as [|seg segs Hseg Hall IH]; intros segs' Hlen' Hall' E'.
  - destruct segs'; [exact E' | discriminate].
  - destruct Hall' as [|seg' segs' Hseg' Hall']; [discriminate|].
    simpl in E'. injection Hlen' as Hlen'.
    pose proof (search_segment (join segs b) Hseg) as S1.
    pose proof (search_segment (join segs' b') Hseg') as S2.
    rewrite E' in S1. rewrite S2 in S1. injection S1 as Hl.
    apply app_same_length in E' as [_ E']; [|now symmetry].
    apply app_inv_head in E'. now apply (IH segs').
Qed.

Lemma received_app (o1 o2 : list Obs) :
  received (o1 ++ o2) = received o1 ++ received o2.
Proof.
  induction o1 as [|o o1 IH]; [reflexivity|].
  destruct o; simpl; rewrite IH; now rewrite ?app_assoc.
Qed.

Lemma splits_app (o1 o2 : list Obs) :
  splits (o1 ++ o2) = splits o1 + splits o2.
Proof.
  induction o1 as [|o o1 IH]; [reflexivity|].
  destruct o; simpl; now rewrite IH.
Qed.

Lemma buffer_invariant_app (o1 o2 : list Obs) :
  forall (R : jsstring) (n : nat),
  buffer_invariant R n (o1 ++ o2) <->
  buffer_invariant R n o1
  /\ buffer_invariant (R ++ received o1) (n + splits o1) o2.
Proof.
  induction o1 as [|o o1 IH]; intros R n.
  - simpl. rewrite app_nil_r, Nat.add_0_r. tauto.
  - destruct o; simpl; rewrite IH.
    + rewrite <- app_assoc. tauto.
    + rewrite Nat.add_succ_r. tauto.
    + tauto.
    + tauto.
    + tauto.
Qed.

Lemma effects_length (obs : list Obs) : length (effects obs) <= length obs.
Proof.
  induction obs as [|o obs IH]; [simpl; lia|]. destruct o; simpl; lia.
Qed.

(** Observations that are all effects say nothing about the buffer. *)
Lemma buffer_invariant_effects (obs : list Obs) (R : jsstring) (n : nat) :
  effects obs = obs ->
  buffer_invariant R n obs /\ received obs = [] /\ splits obs = 0.
Proof.
  induction obs as [|o obs IH]; [now simpl|].
  destruct o; simpl; intros E.
  - exfalso. assert (L : length (effects obs) = S (length obs)) by now rewrite E.
    pose proof (effects_length obs). lia.
  - exfalso. assert (L : length (effects obs) = S (length obs)) by now rewrite E.
    pose proof (effects_length obs). lia.
  - injection E as E. auto.
  - injection E as E. auto.
  - injection E as E. auto.
Qed.

Lemma while_loop_invariant (fuel : nat) :
  forall (b R : jsstring) (n : nat),
  Consumed R n b ->
  buffer_invariant R n (fst (while_loop fuel b))
  /\ Consumed R (n + splits (fst (while_loop fuel b))) (snd (while_loop fuel b))
  /\ received (fst (while_loop fuel b)) = [].
Proof.
  induction fuel as [|fuel IH]; intros b R n Hb.
  - simpl. now rewrite Nat.add_0_r.
  - destruct (search b DELIMITER) as [i|] eqn:E.
    + apply search_split in E as (seg & rest & -> & _ & Hseg).
      rewrite while_loop_segment by exact Hseg.
      pose proof (@Consumed_split R n seg rest Hb Hseg) as Hrest.
      destruct (IH rest R (S n) Hrest) as (Hinv & Hfin & Hrec).
      destruct (buffer_invariant_effects R (S n)
                  (effects_segment_effects seg)) as (Hi & Hr & Hs).
      cbn [fst snd buffer_invariant received splits].
      rewrite received_app, splits_app, Hr, Hs, Hrec.
      split; [|split; [|reflexivity]].
      * split; [exact Hrest|]. apply buffer_invariant_app.
        rewrite Hr, Hs, app_nil_r, Nat.add_0_r. now split.
      * simpl. now rewrite Nat.add_succ_r.
    + assert (Hfree : delimiter_free b)
        by (unfold delimiter_free; now apply search_None).
      rewrite (while_loop_free _ Hfree).
      simpl. now rewrite Nat.add_0_r.
Qed.

Lemma for_await_invariant (cs : list jsstring) :
  forall (b R : jsstring) (n : nat),
  Consumed R n b -> buffer_invariant R n (fst (for_await cs b)).
Proof.
  induction cs as [|c cs IH]; intros b R n Hb; [exact I|].
  cbn [for_await].
  pose proof (Consumed_append c Hb) as Hbc.
  destruct (while_loop_invariant (S (length (b ++ c))) Hbc) as (Hinv & Hfin & Hrec).
  destruct (while_loop (S (length (b ++ c))) (b ++ c)) as [obs1 b2].
  specialize (IH b2 (R ++ c) (n + splits obs1) Hfin).
  destruct (for_await cs b2) as [obs2 final].
  cbn [fst snd buffer_invariant] in *.
  split; [exact Hbc|]. apply buffer_invariant_app.
  rewrite Hrec, app_nil_r. now split.
Qed.

Lemma generator_invariant (up : Upstream) :
  buffer_invariant [] 0 (fst (generateQuizQuestionsStream up)).
Proof.
  unfold generateQuizQuestionsStream.
  assert (H0 : Consumed [] 0 []) by (exists []; repeat split; constructor).
  pose proof (for_await_invariant (chunks up) H0) as H.
  destruct (for_await (chunks up) []) as [obs buffer].
  destruct (failure up); cbn [fst] in *; [exact H|].
  apply buffer_invariant_app. split; [exact H|].
  apply buffer_invariant_effects, effects_finalization.
Qed.

(** C8 (buffer invariant).  At every assignment of [buffer], after a chunk
    is appended and after a split, its value [b] is what follows the last
    consumed delimiter in the text of the chunks received so far (all of
    that text when no delimiter has been consumed), and it is the only
    text of which this can be said. *)
Theorem buffer_holds_unconsumed_suffix
  (up : Upstream) (pre : list Obs) (o : Obs) (post : list Obs) (b : jsstring) :
  fst (generateQuizQuestionsStream up) = pre ++ o :: post ->
  buffer_at o = Some b ->
  Consumed (received (pre ++ [o])) (splits (pre ++ [o])) b
  /\ (forall b', Consumed (received (pre ++ [o])) (splits (pre ++ [o])) b'
                 -> b' = b)
  /\ (splits (pre ++ [o]) = 0 -> b = received (pre ++ [o])).
Proof.
  intros E Hb. pose proof (generator_invariant up) as H.
  rewrite E in H. apply buffer_invariant_app in H as [_ H].
  assert (Hc : Consumed (received (pre ++ [o])) (splits (pre ++ [o])) b).
  { rewrite received_app, splits_app. simpl in H.
    destruct o; try discriminate; injection Hb as ->; simpl.
    - rewrite app_nil_r, Nat.add_0_r. exact (proj1 H).
    - rewrite app_nil_r, Nat.add_1_r. exact (proj1 H). }
  split; [exact Hc|]. split.
  - intros b' Hb'. exact (Consumed_unique Hb' Hc).
  - intros H0. rewrite H0 in Hc.
    destruct Hc as (segs & Hlen & _ & ->).
    destruct segs; [reflexivity | discriminate].
Qed.

(* ================================================================== *)
(** ** The consumer: [startQuiz] and the quiz card *)
(* ================================================================== *)

Lemma step_questions (p : Page) (e : Event) :
  questions (app (step p e))
  = questions (app p) ++ arrivals [e].
Proof.
  destruct e; simpl.
  - reflexivity.
  - rewrite app_nil_r.
    destruct (quizState (app p));
      destruct (questions (app p)) eqn:E; simpl; now rewrite ?E.
  - rewrite app_nil_r.
    destruct (renderContent (app p)); try reflexivity.
    destruct (nth_error _ _); try reflexivity.
    unfold handleOptionClick. destruct (isAnswered (card p)); [reflexivity|].
    simpl. unfold handleAnswer. now destruct (is_correct _ _).
  - rewrite app_nil_r.
    destruct (renderContent (app p)); try reflexivity.
    destruct (isAnswered (card p)); [|reflexivity].
    simpl. unfold handleNext. now destruct (_ <? _)%Z.
Qed.

Lemma step_keys (p : Page) (e : Event) :
  isKeySet (app (step p e)) = isKeySet (app p)
  /\ isCheckingKey (app (step p e)) = isCheckingKey (app p).
Proof.
  destruct e; simpl.
  - now split.
  - destruct (quizState (app p));
      destruct (questions (app p)) eqn:E; simpl; now split.
  - destruct (renderContent (app p)); try (now split).
    destruct (nth_error _ _); try (now split).
    unfold handleOptionClick. destruct (isAnswered (card p)); [now split|].
    simpl. unfold handleAnswer. now destruct (is_correct _ _).
  - destruct (renderContent (app p)); try (now split).
    destruct (isAnswered (card p)); [|now split].
    simpl. unfold handleNext. now destruct (_ <? _)%Z.
Qed.

Lemma arrivals_app (e1 e2 : list Event) :
  arrivals (e1 ++ e2) = arrivals e1 ++ arrivals e2.
Proof.
  induction e1 as [|e e1 IH]; [reflexivity|].
  destruct e; simpl; now rewrite IH.
Qed.

(** Whatever else happens meanwhile, the questions held are those that
    arrived, in order, and the key flags stay as they were. *)
Lemma after_questions (events : list Event) :
  forall p : Page,
  questions (app (after p events)) = questions (app p) ++ arrivals events
  /\ isKeySet (app (after p events)) = isKeySet (app p)
  /\ isCheckingKey (app (after p events)) = isCheckingKey (app p).
Proof.
  induction events as [|e events IH]; intros p.
  - simpl. now rewrite app_nil_r.
  - change (after p (e :: events)) with (after (step p e) events).
    destruct (IH (step p e)) as (Hq & Hk & Hc).
    destruct (step_keys p e) as [Hk' Hc'].
    rewrite Hq, Hk, Hc, step_questions, Hk', Hc', <- app_assoc.
    change (e :: events) with ([e] ++ events). now rewrite arrivals_app.
Qed.














(** Any other failure, here a thrown value that is not an [Error], after
    the same record: the error screen is shown with the stock message. *)
Example generic_failure_shown :
  let a0 := checkApiKey initial_app (Some true) in
  let a := startQuiz a0 (fails_with [example_question_text; DELIMITER]
                           NotAnError) in
  questions a = [example_question]
  /\ renderContent a = ErrorScreen (Some (lit "An unknown error occurred.")).
Proof. split; reflexivity. Qed.

Lemma buffer_holds_unconsumed_suffix_witness :
  let up := completes [json "{}---QML_QUIZ"; json "_DELIMITER---[1]"] in
  let pre := [Appended (json "{}---QML_QUIZ") (json "{}---QML_QUIZ");
              Appended (json "_DELIMITER---[1]")
                (json "{}---QML_QUIZ_DELIMITER---[1]")] in
  let o := Split (json "[1]") in
  Consumed (received (pre ++ [o])) (splits (pre ++ [o])) (json "[1]")
  /\ (forall b', Consumed (received (pre ++ [o])) (splits (pre ++ [o])) b'
                 -> b' = json "[1]")
  /\ (splits (pre ++ [o]) = 0 -> json "[1]" = received (pre ++ [o])).
Proof.
  apply (@buffer_holds_unconsumed_suffix
           (completes [json "{}---QML_QUIZ"; json "_DELIMITER---[1]"])
           [Appended (json "{}---QML_QUIZ") (json "{}---QML_QUIZ");
            Appended (json "_DELIMITER---[1]")
              (json "{}---QML_QUIZ_DELIMITER---[1]")]
           (Split (json "[1]"))
           [ParseCall (json "{}"); Yield (JObject []);
            ParseCall (json "[1]"); Yield (JArray [JNumber (lit "1")])]
           (json "[1]"));
    vm_compute; reflexivity.
Defined.

Lemma renderContent_QuizCardView (a : App) :
  renderContent a = QuizCardView -> quizState a = QuizState.active.
Proof.
  unfold renderContent.
  destruct (isCheckingKey a); [discriminate|].
  destruct (isKeySet a); [|discriminate]. simpl.
  destruct (quizState a); try discriminate; [reflexivity].
Qed.

Lemma step_invariant (p : Page) (e : Event) :
  page_invariant p -> page_invariant (step p e).
Proof.
  unfold page_invariant.
  intros (Hscore & Hnodup & Hidx). destruct e as [q| |o|].
  - (* Arrived *) exact (conj Hscore (conj Hnodup Hidx)).
  - (* TimerFired *)
    unfold step.
    destruct (quizState (app p)) eqn:Eq;
      destruct (questions (app p)) eqn:Eqs; simpl; rewrite ?Eq;
      try (split; [exact Hscore | split; [exact Hnodup | exact Hidx]]).
    rewrite Hidx in *. simpl. repeat split; [exact Hscore | constructor | constructor].
  - (* OptionClick *)
    unfold step. destruct (renderContent (app p)) eqn:Ev;
      try (split; [exact Hscore | split; [exact Hnodup | exact Hidx]]).
    apply renderContent_QuizCardView in Ev.
    destruct (nth_error _ _) as [question|];
      [|split; [exact Hscore | split; [exact Hnodup | exact Hidx]]].
    unfold handleOptionClick. rewrite Ev in Hidx.
    destruct (isAnswered (card p)) eqn:Ea.
    + simpl. rewrite Ev, Ea. split; [exact Hscore | split; [exact Hnodup | exact Hidx]].
    + rewrite Nat.add_0_r in Hidx.
      assert (Hfresh : ~ In (currentQuestionIndex (app p))
                         (map fst (answers p))).
      { intros Hin. rewrite Forall_forall in Hidx.
        specialize (Hidx _ Hin). lia. }
      assert (Hnext : Forall (fun i => i < currentQuestionIndex (app p) + 1)
                        (map fst (answers p))).
      { eapply Forall_impl; [|exact Hidx]. simpl. intros; lia. }
      unfold handleAnswer.
      destruct (is_correct question o); simpl; rewrite Ev; simpl.
      * split; [lia | split; [now constructor |]].
        constructor; [lia | exact Hnext].
      * split; [lia | split; [now constructor |]].
        constructor; [lia | exact Hnext].
  - (* NextClick *)
    unfold step. destruct (renderContent (app p)) eqn:Ev;
      try (split; [exact Hscore | split; [exact Hnodup | exact Hidx]]).
    apply renderContent_QuizCardView in Ev.
    destruct (isAnswered (card p)) eqn:Ea;
      [|rewrite Ea; split; [exact Hscore | split; [exact Hnodup | exact Hidx]]].
    rewrite Ev in Hidx.
    unfold handleNext.
    destruct (_ <? _)%Z; simpl.
    + rewrite Ev.
      replace (currentQuestionIndex (app p) + 1 =? currentQuestionIndex (app p))
        with false by (symmetry; apply Nat.eqb_neq; lia).
      simpl. rewrite Nat.add_0_r.
      split; [exact Hscore | split; [exact Hnodup | exact Hidx]].
    + split; [exact Hscore | split; [exact Hnodup | exact I]].
Qed.

Lemma after_invariant (events : list Event) :
  forall p : Page, page_invariant p -> page_invariant (after p events).
Proof.
  induction events as [|e events IH]; intros p Hp; [exact Hp|].
  apply (IH (step p e)). now apply step_invariant.
Qed.

Lemma started_invariant (a0 : App) : page_invariant (started a0).
Proof. repeat split; constructor. Qed.

Lemma correct_answers_le (log : list (nat * bool)) :
  correct_answers log <= length log.
Proof.
  induction log as [|[i []] log IH]; simpl; lia.
Qed.

Lemma step_score (p : Page) (e : Event) :
  score (app p) <= score (app (step p e)) <= score (app p) + 1.
Proof.
  destruct e; simpl.
  - lia.
  - destruct (quizState (app p)); destruct (questions (app p)); simpl; lia.
  - destruct (renderContent (app p)); try lia.
    destruct (nth_error _ _); try lia.
    unfold handleOptionClick. destruct (isAnswered (card p)); [simpl; lia|].
    unfold handleAnswer. destruct (is_correct _ _); simpl; lia.
  - destruct (renderContent (app p)); try lia.
    destruct (isAnswered (card p)); [|lia].
    unfold handleNext. simpl. destruct (_ <? _)%Z; simpl; lia.
Qed.

(** C9 (one answer per question).  Once the card is answered,
    [handleOptionClick] changes nothing and does not call [onAnswer], so
    a further click on an option leaves the whole page as it is.  All
    along a quiz no question has more than one [onAnswer] call, the score
    is the number of those calls that reported a correct answer, hence at
    most the number of questions answered, and no event raises the score
    by more than 1. *)
Theorem answered_once (a0 : App) (events : list Event) :
  let p := after (started a0) events in
  (forall (c : Card) (question : JSValue) (option_ : jsstring),
      isAnswered c = true ->
      handleOptionClick c question option_ = (c, None))
  /\ (forall option_ : jsstring,
         isAnswered (card p) = true -> step p (OptionClick option_) = p)
  /\ NoDup (map fst (answers p))
  /\ score (app p) = correct_answers (answers p)
  /\ score (app p) <= length (answers p)
  /\ (forall e : Event,
         score (app p) <= score (app (step p e)) <= score (app p) + 1).
Proof.
  intros p.
  destruct (@after_invariant events _ (started_invariant a0))
    as (Hscore & Hnodup & _).
  fold p in Hscore, Hnodup.
  split; [|split; [|split; [|split; [|split]]]].
  - intros c question o Ha. unfold handleOptionClick. now rewrite Ha.
  - intros o Ha. unfold step, handleOptionClick. rewrite Ha.
    destruct (renderContent (app p)); try reflexivity.
    destruct (nth_error _ _); [|reflexivity]. now destruct p.
  - exact Hnodup.
  - exact Hscore.
  - rewrite Hscore. apply correct_answers_le.
  - intros e. apply step_score.
Qed.

Lemma answered_once_witness :
  let a0 := {| quizState := QuizState.idle; questions := [];
               currentQuestionIndex := 0; score := 0; error := None;
               isKeySet := true; isCheckingKey := false |} in
  let q := JObject [(lit "correctAnswer", JString (lit "B"))] in
  let p := after (started a0)
             [Arrived q; TimerFired; OptionClick (lit "B")] in
  isAnswered (card p) = true
  /\ score (app p) = 1
  /\ step p (OptionClick (lit "B")) = p
  /\ score (app (step p (OptionClick (lit "B")))) <= score (app p) + 1.
Proof.
  destruct (answered_once
              {| quizState := QuizState.idle; questions := [];
                 currentQuestionIndex := 0; score := 0; error := None;
                 isKeySet := true; isCheckingKey := false |}
              [Arrived (JObject [(lit "correctAnswer", JString (lit "B"))]);
               TimerFired; OptionClick (lit "B")])
    as (_ & Hnoop & _ & _ & _ & Hstep).
  split; [reflexivity|]. split; [reflexivity|].
  split; [apply Hnoop; reflexivity | apply Hstep].
Defined.

(* ================================================================== *)
(** ** The percentages *)
(* ================================================================== *)

(** A number equal to zero (0 or -0) is not greater than zero. *)
Lemma zero_not_positive (x : float) :
  (x =? 0)%float = true -> (0 <? x)%float = false.
Proof.
  rewrite FloatAxioms.eqb_spec, FloatAxioms.ltb_spec.
  change (Prim2SF 0) with (S754_zero false).
  destruct (Prim2SF x) as [s|s| |s m e]; try destruct s; simpl;
    try reflexivity; discriminate.
Qed.

Example Math_round_half_up : Math_round 12.5 = 13%float.
Proof. reflexivity. Qed.

Example Math_round_negative_half : Math_round (-1.5) = (-1)%float.
Proof. reflexivity. Qed.

Example ScoreSummary_two_of_three :
  ScoreSummary_percentage (number 2) (number 3) = 67%float.
Proof. reflexivity. Qed.

(** Without the guard, a zero maximum gives infinity or NaN. *)
Example unguarded_division :
  (number 1 / number 0 * 100)%float = infinity
  /\ PrimFloat.is_nan (number 0 / number 0 * 100)%float = true.
Proof. split; reflexivity. Qed.

(** C10 (guarded percentages).  When the maximum (the total) is zero, and
    more generally when it is not greater than zero, the percentage is 0
    whatever the value, and no quotient enters it.  When the maximum is
    greater than zero the percentage of the progress bar is
    [value / max * 100], and that of the score summary is
    [Math.round(score / total * 100)], in binary64 arithmetic. *)
Theorem percentages_guarded :
  (forall value max : float,
      (max =? 0)%float = true -> ProgressBar_percentage value max = 0%float)
  /\ (forall value max : float,
         (0 <? max)%float = false -> ProgressBar_percentage value max = 0%float)
  /\ (forall value max : float,
         (0 <? max)%float = true ->
         ProgressBar_percentage value max = (value / max * 100)%float)
  /\ (forall score total : float,
         (total =? 0)%float = true ->
         ScoreSummary_percentage score total = 0%float)
  /\ (forall score total : float,
         (0 <? total)%float = false ->
         ScoreSummary_percentage score total = 0%float)
  /\ (forall score total : float,
         (0 <? total)%float = true ->
         ScoreSummary_percentage score total
         = Math_round (score / total * 100)%float)
  /\ (forall value : float,
         ProgressBar_percentage value (number 0) = 0%float
         /\ ScoreSummary_percentage value (number 0) = 0%float).
Proof.
  unfold ProgressBar_percentage, ScoreSummary_percentage.
  repeat split.
  - intros value max H. now rewrite (@zero_not_positive _ H).
  - intros value max H. now rewrite H.
  - intros value max H. now rewrite H.
  - intros score total H. now rewrite (@zero_not_positive _ H).
  - intros score total H. now rewrite H.
  - intros score total H. now rewrite H.
Qed.

Lemma percentages_guarded_witness :
  ProgressBar_percentage (number 7) (number 0) = 0%float
  /\ ProgressBar_percentage (number 1) (number 50)
     = (number 1 / number 50 * 100)%float
  /\ ScoreSummary_percentage (number 2) (number 0) = 0%float
  /\ ScoreSummary_percentage (number 2) (number 3)
     = Math_round (number 2 / number 3 * 100)%float.
Proof.
  destruct percentages_guarded as (Pz & _ & Pp & Sz & _ & Sp & _).
  split; [apply Pz; reflexivity|].
  split; [apply Pp; reflexivity|].
  split; [apply Sz; reflexivity|].
  apply Sp; reflexivity.
Defined.

(* ================================================================== *)
(** ** More on the streaming parser *)
(* ================================================================== *)

Lemma accounted_app (o1 o2 : list Obs) :
  accounted o1 -> accounted o2 -> accounted (o1 ++ o2).
Proof.
  intros [R1 E1] [R2 E2]. split.
  - now rewrite records_app, attempts_app, map_app, somes_app, R1, R2.
  - now rewrite console_errors_app, attempts_app, filter_app, E1, E2.
Qed.

Lemma accounted_try_parse (label text : jsstring) :
  accounted (try_parse label text).
Proof.
  unfold accounted, try_parse, fails_to_parse. simpl.
  destruct (JSON_parse text) eqn:E; simpl; rewrite ?E; now split.
Qed.

Lemma accounted_while_loop (fuel : nat) :
  forall b : jsstring, accounted (fst (while_loop fuel b)).
Proof.
  induction fuel as [|fuel IH]; intros b; [now split|].
  cbn [while_loop]. destruct (includes b DELIMITER); [|now split].
  specialize (IH (substring_from b
                    (indexOf b DELIMITER + Z.of_nat (length DELIMITER)))).
  destruct (while_loop fuel _) as [rest final]. cbn [fst] in *.
  change (Split ?x :: ?l) with ([Split x] ++ l).
  apply accounted_app; [now split|].
  apply accounted_app; [|exact IH].
  destruct (truthy _); [apply accounted_try_parse | now split].
Qed.

Lemma accounted_for_await (cs : list jsstring) :
  forall b : jsstring, accounted (fst (for_await cs b)).
Proof.
  induction cs as [|c cs IH]; intros b; [now split|].
  cbn [for_await].
  pose proof (accounted_while_loop (S (length (b ++ c))) (b ++ c)) as Hw.
  destruct (while_loop _ (b ++ c)) as [obs1 b2].
  specialize (IH b2). destruct (for_await cs b2) as [obs2 final].
  cbn [fst] in *.
  change (Appended ?x ?y :: ?l) with ([Appended x y] ++ l).
  apply accounted_app; [now split|]. now apply accounted_app.
Qed.

Lemma filter_length_split (A : Type) (f : A -> bool) (l : list A) :
  length l = length (filter f l) + length (filter (fun a => negb (f a)) l).
Proof.
  induction l as [|a l IH]; [reflexivity|].
  simpl. destruct (f a); simpl; lia.
Qed.

Lemma somes_length_filter (l : list jsstring) :
  length (somes (map JSON_parse l))
  = length (filter (fun t => negb (fails_to_parse t)) l).
Proof.
  induction l as [|t l IH]; [reflexivity|].
  unfold fails_to_parse in *. simpl.
  destruct (JSON_parse t); simpl; now rewrite IH.
Qed.

(** X1 (every parse attempt is accounted for).  Whatever the stream, and
    whether it completes or fails: the records yielded are the values of
    the texts handed to [JSON.parse] that parse, the texts logged with
    [console.error] are those that do not, both in the order of the
    attempts; so every attempt ends in exactly one of a yield and a logged
    failure, and there is no yield and no log without an attempt. *)
Theorem attempts_accounted (up : Upstream) :
  let obs := fst (generateQuizQuestionsStream up) in
  records obs = somes (map JSON_parse (attempts obs))
  /\ console_errors obs = filter fails_to_parse (attempts obs)
  /\ length (attempts obs)
     = length (records obs) + length (console_errors obs).
Proof.
  intros obs.
  assert (H : accounted obs).
  { subst obs. unfold generateQuizQuestionsStream.
    pose proof (accounted_for_await (chunks up) []) as Hf.
    destruct (for_await (chunks up) []) as [o buffer].
    destruct (failure up); cbn [fst] in *; [exact Hf|].
    apply accounted_app; [exact Hf|].
    unfold finalization. destruct (truthy _);
      [apply accounted_try_parse | now split]. }
  destruct H as [Hr He]. split; [exact Hr|]. split; [exact He|].
  rewrite Hr, He, somes_length_filter.
  rewrite (filter_length_split fails_to_parse (attempts obs)). lia.
Qed.

(** X2 (a failed stream loses only the trailing record).  When the source
    fails after its chunks, the generator has yielded the records of the
    delimited segments of the text received and nothing of the trailing
    content; had the source completed instead, the only difference would
    be the final parse of that trailing content. *)
Theorem failure_drops_trailing
  (cs : list jsstring) (err : Thrown) (segs : list jsstring) (t : jsstring) :
  Segmented (concat cs) segs t ->
  effects (fst (generateQuizQuestionsStream (fails_with cs err)))
  = flat_map segment_effects segs
  /\ records (fst (generateQuizQuestionsStream (fails_with cs err)))
     = somes (map record_of segs)
  /\ effects (run cs)
     = effects (fst (generateQuizQuestionsStream (fails_with cs err)))
       ++ finalization t.
Proof.
  intros H.
  assert (Hfree : delimiter_free []).
  { intros i Hocc. apply occurs_at_bound in Hocc.
    rewrite DELIMITER_length in Hocc. simpl in Hocc. lia. }
  destruct (for_await_effects cs (b := []) Hfree H) as [He Ht].
  assert (Hg : fst (generateQuizQuestionsStream (fails_with cs err))
               = fst (for_await cs [])).
  { unfold generateQuizQuestionsStream, fails_with. simpl.
    now destruct (for_await cs []). }
  rewrite Hg, He. split; [reflexivity|]. split.
  - now rewrite <- records_effects, He, records_flat_map.
  - exact (proj2 (run_effects cs H)).
Qed.

Lemma failure_drops_trailing_witness :
  let cs := [json "{'question':'Q1'}"; DELIMITER; json "{'question':'Q2'}"] in
  let err := ErrorObject (lit "network down") in
  effects (fst (generateQuizQuestionsStream (fails_with cs err)))
  = flat_map segment_effects [json "{'question':'Q1'}"]
  /\ records (fst (generateQuizQuestionsStream (fails_with cs err)))
     = somes (map record_of [json "{'question':'Q1'}"])
  /\ effects (run cs)
     = effects (fst (generateQuizQuestionsStream (fails_with cs err)))
       ++ finalization (json "{'question':'Q2'}").
Proof.
  apply (@failure_drops_trailing
           [json "{'question':'Q1'}"; DELIMITER; json "{'question':'Q2'}"]
           (ErrorObject (lit "network down"))
           [json "{'question':'Q1'}"] (json "{'question':'Q2'}")).
  segmented.
Defined.

(** X4 (nothing happens before the first delimiter).  While the text
    received contains no delimiter the generator parses nothing, yields
    nothing and logs nothing: it only buffers, and the buffer is the whole
    text.  Such a stream yields its one record, if any, only when the
    source completes. *)
Theorem no_delimiter_no_effect (cs : list jsstring) :
  delimiter_free (concat cs) ->
  effects (fst (for_await cs [])) = []
  /\ snd (for_await cs []) = concat cs
  /\ effects (run cs) = finalization (concat cs).
Proof.
  intros H.
  assert (Hfree : delimiter_free []).
  { intros i Hocc. apply occurs_at_bound in Hocc.
    rewrite DELIMITER_length in Hocc. simpl in Hocc. lia. }
  pose proof (Segmented_trailing H) as Hs.
  destruct (for_await_effects cs (b := []) Hfree Hs) as [He Ht].
  split; [exact He|]. split; [exact Ht|].
  exact (proj2 (run_effects cs Hs)).
Qed.

Lemma no_delimiter_no_effect_witness :
  let cs := [json "{'question':"; json "'Q1'}---QML_QUIZ_DELIM"] in
  effects (fst (for_await cs [])) = []
  /\ snd (for_await cs []) = concat cs
  /\ effects (run cs) = finalization (concat cs).
Proof.
  apply (@no_delimiter_no_effect
           [json "{'question':"; json "'Q1'}---QML_QUIZ_DELIM"]).
  apply delimiter_free_includes. vm_compute. reflexivity.
Defined.

(** X5 (the buffer is drained after every chunk).  When the generator
    goes back to wait for the next chunk, and when the stream ends, no
    whole delimiter is left in the buffer, and the buffer is no longer
    than the text received. *)
Theorem buffer_drained (cs : list jsstring) :
  includes (snd (for_await cs [])) DELIMITER = false
  /\ length (snd (for_await cs [])) <= length (concat cs).
Proof.
  assert (Hfree : delimiter_free []).
  { intros i Hocc. apply occurs_at_bound in Hocc.
    rewrite DELIMITER_length in Hocc. simpl in Hocc. lia. }
  destruct (Segmented_exists (concat cs)) as (segs & t & H).
  destruct (for_await_effects cs (b := []) Hfree H) as [_ Ht].
  rewrite Ht. split.
  - apply delimiter_free_includes. exact (Segmented_trailing_free H).
  - rewrite (Segmented_join H). clear. induction segs as [|s segs IH]; simpl.
    + lia.
    + rewrite !length_app. lia.
Qed.

Lemma trimStart_nil (s : jsstring) :
  trimStart s = [] <-> forallb is_whitespace s = true.
Proof.
  induction s as [|c s IH]; simpl; [tauto|].
  destruct (is_whitespace c); simpl; [exact IH|].
  split; discriminate.
Qed.

Lemma trimStart_head (s : jsstring) (c : codeunit) (r : jsstring) :
  trimStart s = c :: r -> is_whitespace c = false.
Proof.
  induction s as [|d s IH]; simpl; [discriminate|].
  destruct (is_whitespace d) eqn:E; [exact IH|].
  intros [= <- _]. exact E.
Qed.

Lemma forallb_rev (A : Type) (f : A -> bool) (l : list A) :
  forallb f (rev l) = forallb f l.
Proof.
  induction l as [|a l IH]; [reflexivity|].
  simpl. rewrite forallb_app, IH. simpl. rewrite andb_true_r.
  apply andb_comm.
Qed.

(** [trim] leaves nothing exactly of the texts made of whitespace only. *)
Lemma trim_nil (s : jsstring) :
  trim s = [] <-> forallb is_whitespace s = true.
Proof.
  unfold trim, trimEnd. split.
  - intros H.
    assert (H1 : trimStart (rev (trimStart s)) = []).
    { destruct (trimStart (rev (trimStart s))); [reflexivity|].
      simpl in H. now apply app_eq_nil in H as [_ H]. }
    apply trimStart_nil in H1. rewrite forallb_rev in H1.
    destruct (trimStart s) as [|c r] eqn:E; [now apply trimStart_nil|].
    apply trimStart_head in E. simpl in H1. rewrite E in H1. discriminate.
  - intros H. apply trimStart_nil in H. now rewrite H.
Qed.

(** X6 (which segments are skipped).  A delimited segment, and likewise
    the trailing content, is skipped without a parse attempt, a record or
    a log entry exactly when all its code units are whitespace for
    [String.prototype.trim] (the empty text included); any other segment
    is handed to [JSON.parse]. *)
Theorem skipped_iff_whitespace (seg : jsstring) :
  (segment_effects seg = [] <-> forallb is_whitespace seg = true)
  /\ (finalization seg = [] <-> forallb is_whitespace seg = true)
  /\ (forallb is_whitespace seg = false ->
      attempts (segment_effects seg) = [trim seg]
      /\ attempts (finalization seg) = [trim seg]).
Proof.
  pose proof (trim_nil seg) as Ht.
  unfold segment_effects, finalization, try_parse.
  destruct (trim seg) as [|c r] eqn:E; simpl.
  - assert (Hw : forallb is_whitespace seg = true) by now apply Ht.
    rewrite Hw. repeat split; try reflexivity; discriminate.
  - assert (Hw : forallb is_whitespace seg = false).
    { destruct (forallb is_whitespace seg); [|reflexivity].
      destruct Ht as [_ Ht]. discriminate (Ht eq_refl). }
    rewrite Hw.
    repeat split; try discriminate; destruct (JSON_parse (c :: r)); reflexivity.
Qed.

(* ================================================================== *)
(** ** No text with a delimiter is ever parsed *)
(* ================================================================== *)

Lemma trimStart_suffix (s : jsstring) : exists pre, s = pre ++ trimStart s.
Proof.
  induction s as [|c s [pre IH]]; [now exists []|].
  simpl. destruct (is_whitespace c).
  - exists (c :: pre). simpl. now rewrite <- IH.
  - now exists [].
Qed.

Lemma trim_infix (s : jsstring) : exists pre post, s = pre ++ trim s ++ post.
Proof.
  unfold trim, trimEnd.
  destruct (trimStart_suffix s) as [pre Hpre].
  destruct (trimStart_suffix (rev (trimStart s))) as [post Hpost].
  exists pre, (rev post).
  rewrite <- rev_app_distr, <- Hpost, rev_involutive. exact Hpre.
Qed.

Lemma occurs_at_infix (pat pre s post : jsstring) (i : nat) :
  occurs_at pat s i -> occurs_at pat (pre ++ s ++ post) (length pre + i).
Proof.
  intros (a & b & -> & <-). exists (pre ++ a), (b ++ post).
  rewrite length_app. split; [|reflexivity].
  now rewrite <- !app_assoc.
Qed.

Lemma first_delimiter_after_free (seg : jsstring) :
  first_delimiter_after seg -> delimiter_free seg.
Proof.
  intros H i Hocc. pose proof (occurs_at_bound Hocc) as Hb.
  rewrite DELIMITER_length in Hb.
  apply (H i); [lia|]. now apply occurs_at_app_l.
Qed.

Lemma trim_delimiter_free (seg : jsstring) :
  delimiter_free seg -> includes (trim seg) DELIMITER = false.
Proof.
  intros H. apply delimiter_free_includes. intros i Hocc.
  destruct (trim_infix seg) as (pre & post & E).
  apply (H (length pre + i)). rewrite E at 1. now apply occurs_at_infix.
Qed.

Lemma attempts_segments_free (segs : list jsstring) :
  Forall delimiter_free segs ->
  Forall (fun text => includes text DELIMITER = false)
    (filter truthy (map trim segs)).
Proof.
  induction 1 as [|seg segs Hseg _ IH]; [constructor|].
  simpl. destruct (truthy (trim seg)); [|exact IH].
  constructor; [now apply trim_delimiter_free | exact IH].
Qed.

(** X7 (no text with a delimiter is ever parsed).  Whatever the stream
    and however it ends, no text handed to [JSON.parse] contains the
    delimiter.  The delimiter is not escaped: a record whose text contains
    it, inside a string for instance, is cut there and is never parsed or
    yielded as written. *)
Theorem parsed_texts_delimiter_free (up : Upstream) :
  Forall (fun text => includes text DELIMITER = false)
    (attempts (fst (generateQuizQuestionsStream up))).
Proof.
  assert (Hfree : delimiter_free []).
  { intros i Hocc. apply occurs_at_bound in Hocc.
    rewrite DELIMITER_length in Hocc. simpl in Hocc. lia. }
  destruct (Segmented_exists (concat (chunks up))) as (segs & t & H).
  destruct (for_await_effects (chunks up) (b := []) Hfree H) as [He Ht].
  assert (Hsegs : Forall delimiter_free segs).
  { eapply Forall_impl; [|exact (Segmented_segments_first H)].
    intros seg. apply first_delimiter_after_free. }
  assert (Hloop : Forall (fun text => includes text DELIMITER = false)
                    (attempts (fst (for_await (chunks up) [])))).
  { rewrite <- attempts_effects, He, attempts_flat_map.
    now apply attempts_segments_free. }
  unfold generateQuizQuestionsStream.
  destruct (for_await (chunks up) []) as [obs buffer]. cbn [fst snd] in *.
  destruct (failure up); cbn [fst]; [exact Hloop|].
  rewrite attempts_app. apply Forall_app. split; [exact Hloop|].
  rewrite attempts_finalization. subst buffer.
  apply (attempts_segments_free (segs := [t])).
  constructor; [exact (Segmented_trailing_free H) | constructor].
Qed.

(** A record with the delimiter inside a string is cut in two texts that
    do not parse. *)
Example delimiter_inside_a_record :
  JSON_parse (json "{'question':'a---QML_QUIZ_DELIMITER---b'}")
  = Some (JObject [(lit "question",
                    JString (lit "a---QML_QUIZ_DELIMITER---b"))])
  /\ records (run [json "{'question':'a---QML_QUIZ_DELIMITER---b'}"]) = []
  /\ console_errors (run [json "{'question':'a---QML_QUIZ_DELIMITER---b'}"])
     = [json "{'question':'a"; json "b'}"].
Proof. repeat split; reflexivity. Qed.

(* ================================================================== *)
(** ** More on the quiz card *)
(* ================================================================== *)

Lemma jsstring_eqb_eq (a b : jsstring) : jsstring_eqb a b = true <-> a = b.
Proof.
  revert b; induction a as [|x a IH]; intros [|y b]; simpl;
    try (split; [discriminate | intros; discriminate]).
  - tauto.
  - rewrite andb_true_iff, N.eqb_eq, IH. split.
    + now intros [-> ->].
    + intros [= -> ->]. now split.
Qed.

Lemma jsstring_eqb_refl (a : jsstring) : jsstring_eqb a a = true.
Proof. now apply jsstring_eqb_eq. Qed.

(** The four classes are four different strings. *)
Lemma classes_distinct :
  class_open <> class_correct /\ class_open <> class_wrong
  /\ class_open <> class_dimmed /\ class_correct <> class_wrong
  /\ class_correct <> class_dimmed /\ class_wrong <> class_dimmed.
Proof. repeat split; vm_compute; discriminate. Qed.

(** X8 (class and icon agree).  For every state of the card and every
    option, the icon [renderIconForOption] returns matches the class
    [getOptionClass] returns: no icon with the open class, the check with
    the green class, the cross with the red class, the placeholder with the
    dimmed class.  Before the answer every option is open; after it an
    option is green exactly when it is the correct answer, also when it was
    not the one selected. *)
Theorem class_and_icon_agree (c : Card) (question : JSValue)
  (option_ : jsstring) :
  (renderIconForOption c question option_ = None
   <-> getOptionClass c question option_ = class_open)
  /\ (renderIconForOption c question option_ = Some CheckCircleIcon
      <-> getOptionClass c question option_ = class_correct)
  /\ (renderIconForOption c question option_ = Some XCircleIcon
      <-> getOptionClass c question option_ = class_wrong)
  /\ (renderIconForOption c question option_ = Some Placeholder
      <-> getOptionClass c question option_ = class_dimmed)
  /\ (getOptionClass c question option_ = class_open
      <-> isAnswered c = false)
  /\ (getOptionClass c question option_ = class_correct
      <-> isAnswered c = true /\ is_correct question option_ = true).
Proof.
  destruct classes_distinct as (D1 & D2 & D3 & D4 & D5 & D6).
  unfold renderIconForOption, getOptionClass.
  destruct (isAnswered c); simpl;
    [destruct (is_correct question option_); simpl;
     [|destruct (is_selected c option_); simpl]|];
    repeat split; intros; try reflexivity; try discriminate;
    try congruence;
    match goal with H : _ /\ _ |- _ => destruct H; discriminate end.
Qed.

(** X9 (the click that is counted is the click that is shown).  A click on
    an option of a card not yet answered reports to [onAnswer] whether the
    option is the correct answer, and the card then shows that very option
    green with the check when it reported true, red with the cross when it
    reported false; every other option is green if it is the correct
    answer and dimmed otherwise, never red. *)
Theorem click_shown_as_counted (c : Card) (question : JSValue)
  (option_ : jsstring) :
  isAnswered c = false ->
  let c' := fst (handleOptionClick c question option_) in
  snd (handleOptionClick c question option_)
  = Some (is_correct question option_)
  /\ getOptionClass c' question option_
     = (if is_correct question option_ then class_correct else class_wrong)
  /\ renderIconForOption c' question option_
     = Some (if is_correct question option_
             then CheckCircleIcon else XCircleIcon)
  /\ forall other : jsstring,
       other <> option_ ->
       getOptionClass c' question other
       = (if is_correct question other then class_correct else class_dimmed).
Proof.
  intros Ha. unfold handleOptionClick. rewrite Ha. cbn [fst snd].
  unfold getOptionClass, renderIconForOption, is_selected. cbn.
  rewrite jsstring_eqb_refl.
  split; [reflexivity|].
  split; [now destruct (is_correct question option_)|].
  split; [now destruct (is_correct question option_)|].
  intros other Hne. destruct (is_correct question other); [reflexivity|].
  destruct (jsstring_eqb other option_) eqn:E; [|reflexivity].
  apply jsstring_eqb_eq in E. contradiction.
Qed.

Lemma click_shown_as_counted_witness :
  let q := JObject [(lit "correctAnswer", JString (lit "B"))] in
  let c' := fst (handleOptionClick fresh_card q (lit "A")) in
  snd (handleOptionClick fresh_card q (lit "A")) = Some (is_correct q (lit "A"))
  /\ getOptionClass c' q (lit "A")
     = (if is_correct q (lit "A") then class_correct else class_wrong)
  /\ renderIconForOption c' q (lit "A")
     = Some (if is_correct q (lit "A") then CheckCircleIcon else XCircleIcon)
  /\ forall other : jsstring,
       other <> lit "A" ->
       getOptionClass c' q other
       = (if is_correct q other then class_correct else class_dimmed).
Proof.
  apply (@click_shown_as_counted fresh_card
           (JObject [(lit "correctAnswer", JString (lit "B"))]) (lit "A")).
  reflexivity.
Defined.

Lemma is_correct_spec (question : JSValue) (option_ : jsstring) :
  is_correct question option_ = true
  <-> get question (lit "correctAnswer") = Some (JString option_).
Proof.
  unfold is_correct.
  destruct (get question (lit "correctAnswer")) as [[| | |s| |]|];
    try (split; [discriminate | intros; discriminate]).
  rewrite jsstring_eqb_eq. split; [now intros -> | now intros [= ->]].
Qed.

Lemma shape_correctAnswer (question : JSValue) :
  has_QuizQuestion_shape question = true ->
  exists answer, get question (lit "correctAnswer") = Some (JString answer).
Proof.
  unfold has_QuizQuestion_shape. intros H.
  destruct question as [| | | | |members]; try discriminate.
  rewrite !andb_true_iff in H. destruct H as ((((_ & _) & Hc) & _) & _).
  destruct (get (JObject members) (lit "correctAnswer")) as [[| | |s| |]|];
    try discriminate.
  now exists s.
Qed.

(** X10 (what scores).  Let the card show a record of the [QuizQuestion]
    shape, not yet answered.  Its [correctAnswer] is then a string, and a
    click on one of its options adds 1 to the score exactly when the
    option has the code units of that string; otherwise the score stays as
    it is.  Either way the card is answered afterwards, with the option
    clicked as the selected one.  (Records of another shape are outside
    this statement: the generator does not check the shape, and an option
    that is not a string is compared by [===] as the value it is.) *)
Theorem click_scores_iff_correct (p : Page) (question : JSValue)
  (opts : list JSValue) (option_ : jsstring) :
  renderContent (app p) = QuizCardView ->
  nth_error (questions (app p)) (currentQuestionIndex (app p))
  = Some question ->
  isAnswered (card p) = false ->
  has_QuizQuestion_shape question = true ->
  get question (lit "options") = Some (JArray opts) ->
  In (JString option_) opts ->
  exists answer,
    get question (lit "correctAnswer") = Some (JString answer)
    /\ (option_ = answer ->
        score (app (step p (OptionClick option_))) = score (app p) + 1)
    /\ (option_ <> answer ->
        score (app (step p (OptionClick option_))) = score (app p))
    /\ isAnswered (card (step p (OptionClick option_))) = true
    /\ selectedOption (card (step p (OptionClick option_))) = Some option_.
Proof.
  intros Hv Hq Ha Hshape _ _.
  destruct (shape_correctAnswer question Hshape) as [answer Hans].
  exists answer. split; [exact Hans|].
  unfold step. rewrite Hv, Hq.
  unfold handleOptionClick. rewrite Ha. cbn.
  pose proof (is_correct_spec question option_) as Hc.
  unfold handleAnswer.
  destruct (is_correct question option_); cbn.
  - split; [reflexivity|]. split; [|now split].
    intros Hne. exfalso. apply Hne.
    assert (E : Some (JString answer) = Some (JString option_)).
    { rewrite <- Hans. now apply Hc. }
    now injection E.
  - split; [|now split]. intros He. subst answer. apply Hc in Hans.
    discriminate.
Qed.

(** On the example record, whose [correctAnswer] is "B": a click on the
    option "B" scores, and a click on the option "A" does not. *)
Lemma click_scores_iff_correct_witness :
  let p := {| app := {| quizState := QuizState.active;
                        questions := [example_question];
                        currentQuestionIndex := 0; score := 0; error := None;
                        isKeySet := true; isCheckingKey := false |};
              card := fresh_card; answers := [] |} in
  score (app (step p (OptionClick (lit "B")))) = 1
  /\ isAnswered (card (step p (OptionClick (lit "B")))) = true
  /\ selectedOption (card (step p (OptionClick (lit "B")))) = Some (lit "B")
  /\ score (app (step p (OptionClick (lit "A")))) = 0.
Proof.
  destruct (@click_scores_iff_correct
              {| app := {| quizState := QuizState.active;
                           questions := [example_question];
                           currentQuestionIndex := 0; score := 0;
                           error := None;
                           isKeySet := true; isCheckingKey := false |};
                 card := fresh_card; answers := [] |}
              example_question [JString (lit "A"); JString (lit "B")]
              (lit "A"))
    as (answerA & HansA & _ & Hno & _);
    [reflexivity | reflexivity | reflexivity | reflexivity | reflexivity
    | left; reflexivity |].
  assert (Hanswer : answerA = lit "B").
  { assert (E : Some (JString (lit "B")) = Some (JString answerA)).
    { rewrite <- HansA. reflexivity. }
    now injection E. }
  assert (HA : score (app (step
                 {| app := {| quizState := QuizState.active;
                              questions := [example_question];
                              currentQuestionIndex := 0; score := 0;
                              error := None;
                              isKeySet := true; isCheckingKey := false |};
                    card := fresh_card; answers := [] |}
                 (OptionClick (lit "A")))) = 0).
  { rewrite Hno; [reflexivity|]. rewrite Hanswer. discriminate. }
  destruct (@click_scores_iff_correct
              {| app := {| quizState := QuizState.active;
                           questions := [example_question];
                           currentQuestionIndex := 0; score := 0;
                           error := None;
                           isKeySet := true; isCheckingKey := false |};
                 card := fresh_card; answers := [] |}
              example_question [JString (lit "A"); JString (lit "B")]
              (lit "B"))
    as (answer & Hans & Hyes & _ & Hdone & Hsel).
  - reflexivity.
  - reflexivity.
  - reflexivity.
  - reflexivity.
  - reflexivity.
  - right. left. reflexivity.
  - split; [|split; [exact Hdone | split; [exact Hsel | exact HA]]].
    rewrite Hyes; [reflexivity|].
    assert (E : Some (JString (lit "B")) = Some (JString answer)).
    { rewrite <- Hans. reflexivity. }
    now injection E.
Defined.

(* ================================================================== *)
(** ** More on a quiz run *)
(* ================================================================== *)

Lemma seq_snoc (n : nat) : rev (seq 0 (n + 1)) = n :: rev (seq 0 n).
Proof.
  rewrite Nat.add_1_r, seq_S, rev_app_distr. reflexivity.
Qed.

Lemma step_progress (p : Page) (e : Event) :
  page_progress p -> page_progress (step p e).
Proof.
  unfold page_progress. intros H. destruct e as [q| |o|].
  - (* Arrived *)
    simpl. destruct (quizState (app p)); try exact H;
      destruct H as [Hlt Hlog]; (split; [|exact Hlog]);
      rewrite length_app; simpl; lia.
  - (* TimerFired *)
    unfold step. destruct (quizState (app p)) eqn:Eq;
      destruct (questions (app p)) eqn:Eqs; simpl; rewrite ?Eq, ?Eqs;
      try exact H.
    destruct H as [Hidx Hlog]. rewrite Hidx, Hlog. simpl. split; [lia|reflexivity].
  - (* OptionClick *)
    unfold step. destruct (renderContent (app p)) eqn:Ev; try exact H.
    apply renderContent_QuizCardView in Ev.
    destruct (nth_error _ _) as [question|]; [|exact H].
    unfold handleOptionClick. rewrite Ev in H. destruct H as [Hlt Hlog].
    destruct (isAnswered (card p)) eqn:Ea.
    + simpl. rewrite Ev, Ea. now split.
    + rewrite Nat.add_0_r in Hlog. unfold handleAnswer.
      destruct (is_correct question o); simpl; rewrite Ev; simpl;
        (split; [exact Hlt|]); now rewrite seq_snoc, Hlog.
  - (* NextClick *)
    unfold step. destruct (renderContent (app p)) eqn:Ev; try exact H.
    apply renderContent_QuizCardView in Ev.
    destruct (isAnswered (card p)) eqn:Ea; [|rewrite ?Ea; exact H].
    rewrite Ev in H. destruct H as [Hlt Hlog].
    unfold handleNext.
    destruct (_ <? _)%Z eqn:En; simpl.
    + rewrite Ev.
      replace (currentQuestionIndex (app p) + 1 =? currentQuestionIndex (app p))
        with false by (symmetry; apply Nat.eqb_neq; lia).
      simpl. rewrite Nat.add_0_r. apply Z.ltb_lt in En.
      split; [lia | exact Hlog].
    + now split.
Qed.

Lemma after_progress (events : list Event) :
  forall p : Page, page_progress p -> page_progress (after p events).
Proof.
  induction events as [|e events IH]; intros p Hp; [exact Hp|].
  apply (IH (step p e)). now apply step_progress.
Qed.

Lemma started_progress (a0 : App) : page_progress (started a0).
Proof. now split. Qed.

(** X11 (the card always has its question).  All along a quiz, whatever
    arrives and whatever is clicked: when the card is shown,
    [questions[currentQuestionIndex]] is one of the questions held, never
    [undefined]; and the empty view of the ['active'] state
    ([questions.length === 0]) is never shown. *)
Theorem card_has_question (a0 : App) (events : list Event) :
  let p := after (started a0) events in
  renderContent (app p) <> Nothing
  /\ (renderContent (app p) = QuizCardView ->
      exists question,
        nth_error (questions (app p)) (currentQuestionIndex (app p))
        = Some question)
  /\ (quizState (app p) = QuizState.active ->
      currentQuestionIndex (app p) < length (questions (app p))).
Proof.
  intros p.
  pose proof (@after_progress events _ (started_progress a0)) as H.
  fold p in H. unfold page_progress in H.
  assert (Hact : quizState (app p) = QuizState.active ->
                 currentQuestionIndex (app p) < length (questions (app p))).
  { intros E. rewrite E in H. exact (proj1 H). }
  split; [|split; [|exact Hact]].
  - unfold renderContent. destruct (isCheckingKey (app p)); [discriminate|].
    destruct (isKeySet (app p)); [|discriminate]. simpl.
    destruct (quizState (app p)); try discriminate.
    specialize (Hact eq_refl).
    destruct (questions (app p)); [simpl in Hact; lia | discriminate].
  - intros Ev. apply renderContent_QuizCardView in Ev.
    specialize (Hact Ev).
    destruct (nth_error (questions (app p)) (currentQuestionIndex (app p)))
      as [q|] eqn:E; [now exists q|].
    apply nth_error_None in E. lia.
Qed.

(** X12 (questions are answered in order, none skipped).  All along a
    quiz the [onAnswer] calls made so far are one for each of the
    questions 0, 1, 2, ... up to a point, in that order: while the card is
    shown, for all questions before the current one, and for the current
    one exactly when it is answered; once the quiz is finished, for all
    questions up to the last one shown. *)
Theorem answered_in_order (a0 : App) (events : list Event) :
  let p := after (started a0) events in
  map fst (answers p) = rev (seq 0 (length (answers p)))
  /\ (quizState (app p) = QuizState.loading -> answers p = [])
  /\ (quizState (app p) = QuizState.active ->
      length (answers p)
      = currentQuestionIndex (app p)
        + (if isAnswered (card p) then 1 else 0))
  /\ (quizState (app p) = QuizState.finished ->
      length (answers p) = currentQuestionIndex (app p) + 1).
Proof.
  intros p.
  pose proof (@after_progress events _ (started_progress a0)) as H.
  fold p in H. unfold page_progress in H.
  assert (Hlen : forall n, map fst (answers p) = rev (seq 0 n) ->
                           length (answers p) = n).
  { intros n E. rewrite <- (length_map fst), E, length_rev. apply length_seq. }
  destruct (quizState (app p)).
  - contradiction.
  - destruct H as [_ Hlog]. rewrite Hlog.
    repeat split; intros; try discriminate; reflexivity.
  - destruct H as [_ Hlog]. rewrite (Hlen _ Hlog).
    repeat split; intros; try discriminate; try reflexivity; exact Hlog.
  - destruct H as [_ Hlog]. rewrite (Hlen _ Hlog).
    repeat split; intros; try discriminate; try reflexivity; exact Hlog.
  - contradiction.
Qed.

(** X13 (the score fits the total).  All along a quiz the score is at most
    the number of questions answered, which is at most the number of
    questions held; so the summary never reports more correct answers than
    it reports questions, and a finished quiz has at least one question. *)
Theorem score_within_total (a0 : App) (events : list Event) :
  let p := after (started a0) events in
  score (app p) <= length (answers p)
  /\ length (answers p) <= length (questions (app p))
  /\ (quizState (app p) = QuizState.finished ->
      score (app p) <= currentQuestionIndex (app p) + 1
      /\ currentQuestionIndex (app p) + 1 <= length (questions (app p))).
Proof.
  intros p.
  pose proof (@after_progress events _ (started_progress a0)) as H.
  destruct (@after_invariant events _ (started_invariant a0)) as (Hscore & _).
  fold p in H, Hscore. unfold page_progress in H.
  assert (Hs : score (app p) <= length (answers p)).
  { rewrite Hscore. apply correct_answers_le. }
  assert (Hlen : forall n, map fst (answers p) = rev (seq 0 n) ->
                           length (answers p) = n).
  { intros n E. rewrite <- (length_map fst), E, length_rev. apply length_seq. }
  split; [exact Hs|].
  destruct (quizState (app p)).
  - contradiction.
  - destruct H as [_ Hlog]. rewrite Hlog. simpl.
    split; [lia | discriminate].
  - destruct H as [Hlt Hlog]. apply Hlen in Hlog.
    split; [destruct (isAnswered (card p)); lia | discriminate].
  - destruct H as [Hlt Hlog]. apply Hlen in Hlog.
    split; [lia|]. intros _. lia.
  - contradiction.
Qed.





(* ================================================================== *)
(** ** More on the [App] component *)
(* ================================================================== *)

Lemma labels_distinct : lit "Finish" <> lit "Next".
Proof. vm_compute. discriminate. Qed.

(** X15 (the label of the button says what it does).  While the index is
    that of a question held, the last button of the card reads Finish
    exactly when [handleNext] ends the quiz, leaving the index as it is,
    and Next exactly when [handleNext] moves to the next question, which
    is then again the index of a question held. *)
Theorem next_label_agrees (a : App) :
  currentQuestionIndex a < length (questions a) ->
  (shown_next_label a = lit "Finish" \/ shown_next_label a = lit "Next")
  /\ (shown_next_label a = lit "Finish" <->
      handleNext a
      = {| quizState := QuizState.finished;
           questions := questions a;
           currentQuestionIndex := currentQuestionIndex a;
           score := score a;
           error := error a;
           isKeySet := isKeySet a;
           isCheckingKey := isCheckingKey a |})
  /\ (shown_next_label a = lit "Next" ->
      quizState (handleNext a) = quizState a
      /\ currentQuestionIndex (handleNext a) = currentQuestionIndex a + 1
      /\ currentQuestionIndex (handleNext a) < length (questions a)).
Proof.
  intros Hlt. unfold shown_next_label, next_button_label, handleNext.
  pose proof labels_distinct as Hd.
  destruct (Nat.eqb_spec (currentQuestionIndex a + 1) (length (questions a)))
    as [E|E].
  - replace (_ <? _)%Z with false by (symmetry; apply Z.ltb_ge; lia).
    split; [now left|]. split; [now split|]. intros H. contradiction.
  - replace (_ <? _)%Z with true by (symmetry; apply Z.ltb_lt; lia).
    split; [now right|]. split.
    + split; [intros H; symmetry in H; contradiction|].
      intros H. apply (f_equal currentQuestionIndex) in H. simpl in H. lia.
    + intros _. simpl. repeat split; lia.
Qed.

Lemma next_label_agrees_witness :
  let a := {| quizState := QuizState.active;
              questions := [JNull; JNull];
              currentQuestionIndex := 1; score := 0; error := None;
              isKeySet := true; isCheckingKey := false |} in
  (shown_next_label a = lit "Finish" \/ shown_next_label a = lit "Next")
  /\ (shown_next_label a = lit "Finish" <->
      handleNext a
      = {| quizState := QuizState.finished;
           questions := questions a;
           currentQuestionIndex := currentQuestionIndex a;
           score := score a;
           error := error a;
           isKeySet := isKeySet a;
           isCheckingKey := isCheckingKey a |})
  /\ (shown_next_label a = lit "Next" ->
      quizState (handleNext a) = quizState a
      /\ currentQuestionIndex (handleNext a) = currentQuestionIndex a + 1
      /\ currentQuestionIndex (handleNext a) < length (questions a)).
Proof.
  apply (@next_label_agrees
           {| quizState := QuizState.active;
              questions := [JNull; JNull];
              currentQuestionIndex := 1; score := 0; error := None;
              isKeySet := true; isCheckingKey := false |}).
  simpl. lia.
Defined.

Lemma fold_startQuiz_question_eq (qs : list JSValue) :
  forall a : App,
  fold_left startQuiz_question qs a
  = {| quizState := quizState a;
       questions := questions a ++ qs;
       currentQuestionIndex := currentQuestionIndex a;
       score := score a;
       error := error a;
       isKeySet := isKeySet a;
       isCheckingKey := isCheckingKey a |}.
Proof.
  induction qs as [|q qs IH]; intros a; simpl.
  - rewrite app_nil_r. now destruct a.
  - rewrite IH. simpl. now rewrite <- app_assoc.
Qed.

(** X16 ([startQuiz] starts afresh).  Run against a stream that
    completes, with nothing else happening meanwhile, [startQuiz] leaves
    the state ['loading'], index 0, score 0, no error, and as questions
    the values of the segments of the text that parse, in order: nothing
    of the questions, score, index, error or quiz state it was called in
    survives, and the cut of the text into chunks does not matter. *)
Theorem startQuiz_afresh
  (a0 : App) (cs : list jsstring) (segs : list jsstring) (t : jsstring) :
  Segmented (concat cs) segs t ->
  startQuiz a0 (completes cs)
  = {| quizState := QuizState.loading;
       questions := somes (map record_of (segs ++ [t]));
       currentQuestionIndex := 0;
       score := 0;
       error := None;
       isKeySet := isKeySet a0;
       isCheckingKey := isCheckingKey a0 |}.
Proof.
  intros H. unfold startQuiz.
  pose proof (run_records cs H) as Hr. unfold run in Hr.
  destruct (run_effects cs H) as [Hg _].
  rewrite Hg in *. cbn [fst] in Hr. unfold startQuiz_end.
  rewrite fold_startQuiz_question_eq, Hr. reflexivity.
Qed.

Lemma startQuiz_afresh_witness :
  let a0 := {| quizState := QuizState.finished; questions := [JNull];
               currentQuestionIndex := 0; score := 1;
               error := Some (lit "old"); isKeySet := true;
               isCheckingKey := false |} in
  startQuiz a0 (completes [json "{}---QML_QUIZ"; json "_DELIMITER---[1]"])
  = {| quizState := QuizState.loading;
       questions := somes (map record_of ([json "{}"] ++ [json "[1]"]));
       currentQuestionIndex := 0;
       score := 0;
       error := None;
       isKeySet := isKeySet a0;
       isCheckingKey := isCheckingKey a0 |}.
Proof.
  apply (@startQuiz_afresh
           {| quizState := QuizState.finished; questions := [JNull];
              currentQuestionIndex := 0; score := 1;
              error := Some (lit "old"); isKeySet := true;
              isCheckingKey := false |}
           [json "{}---QML_QUIZ"; json "_DELIMITER---[1]"]
           [json "{}"] (json "[1]")).
  segmented.
Defined.

Lemma step_no_arrival (p : Page) (e : Event) :
  quizState (app p) = QuizState.loading ->
  questions (app p) = [] ->
  arrivals [e] = [] ->
  step p e = p.
Proof.
  intros Hl Hq Ha. destruct e; simpl in *.
  - discriminate.
  - now rewrite Hl, Hq.
  - unfold renderContent. rewrite Hl.
    destruct (isCheckingKey (app p)); [reflexivity|].
    now destruct (isKeySet (app p)).
  - unfold renderContent. rewrite Hl.
    destruct (isCheckingKey (app p)); [reflexivity|].
    now destruct (isKeySet (app p)).
Qed.

(** X17 (a quiz without a record never leaves the loading screen).  As
    long as no record has arrived, no timer and no click changes anything:
    the state stays ['loading'] with no question.  So when the stream ends
    without a single record (an empty stream, or only text that does not
    parse), [startQuiz] returns with the state still ['loading'], and the
    page keeps showing the loading screen. *)
Theorem no_record_stays_loading (a0 : App) (events : list Event) :
  arrivals events = [] ->
  isCheckingKey a0 = false ->
  isKeySet a0 = true ->
  after (started a0) events = started a0
  /\ renderContent (app (after (started a0) events)) = LoadingScreen
  /\ (forall up,
        records (fst (generateQuizQuestionsStream up)) = [] ->
        failure up = None ->
        renderContent (startQuiz a0 up) = LoadingScreen).
Proof.
  intros Ha Hc Hk.
  assert (Hsame : after (started a0) events = started a0).
  { induction events as [|e events IH]; [reflexivity|].
    change (after (started a0) (e :: events))
      with (after (step (started a0) e) events).
    assert (He : arrivals [e] = [] /\ arrivals events = []).
    { destruct e; simpl in *; try discriminate; now split. }
    destruct He as [He Hrest].
    rewrite (@step_no_arrival (started a0) e eq_refl eq_refl He).
    now apply IH. }
  split; [exact Hsame|]. rewrite Hsame.
  split.
  - unfold renderContent. simpl. now rewrite Hc, Hk.
  - intros up Hr Hf. unfold startQuiz, generateQuizQuestionsStream in *.
    rewrite Hf in *. destruct (for_await (chunks up) []) as [obs buffer].
    cbn [fst] in Hr. rewrite Hr. unfold renderContent. simpl.
    now rewrite Hc, Hk.
Qed.

Lemma no_record_stays_loading_witness :
  let a0 := checkApiKey initial_app (Some true) in
  let events := [TimerFired; OptionClick (lit "A"); NextClick] in
  after (started a0) events = started a0
  /\ renderContent (app (after (started a0) events)) = LoadingScreen
  /\ (forall up,
        records (fst (generateQuizQuestionsStream up)) = [] ->
        failure up = None ->
        renderContent (startQuiz a0 up) = LoadingScreen).
Proof.
  apply (@no_record_stays_loading (checkApiKey initial_app (Some true))
           [TimerFired; OptionClick (lit "A"); NextClick]);
    reflexivity.
Defined.

(** X18 (the ways back from a failure).  After a failure with an invalid
    key, a key selection that resolves brings the start screen back with
    the error cleared, and one that rejects leaves the key setup with its
    message; after any other failure, Back to Home brings the start screen
    back, the message still stored.  Neither way touches the questions or
    the score: they stay until the next [startQuiz]. *)
Theorem ways_back (a : App) (err : Thrown) :
  isCheckingKey a = false ->
  isKeySet a = true ->
  (api_key_not_valid err = true ->
   renderContent (handleSetupClick (startQuiz_catch a err) true) = StartScreen
   /\ error (handleSetupClick (startQuiz_catch a err) true) = None
   /\ renderContent (handleSetupClick (startQuiz_catch a err) false)
      = ApiKeySetup (Some (lit "Your API key appears to be invalid. Please select a new one to continue."))
   /\ questions (handleSetupClick (startQuiz_catch a err) true) = questions a
   /\ score (handleSetupClick (startQuiz_catch a err) true) = score a)
  /\ (api_key_not_valid err = false ->
      renderContent (backToHome (startQuiz_catch a err)) = StartScreen
      /\ error (backToHome (startQuiz_catch a err)) = Some (errorMessage err)
      /\ questions (backToHome (startQuiz_catch a err)) = questions a
      /\ score (backToHome (startQuiz_catch a err)) = score a).
Proof.
  intros Hc Hk. unfold startQuiz_catch, handleSetupClick, onKeySet,
    backToHome, renderContent.
  split; intros Hv; rewrite Hv; simpl; rewrite Hc, ?Hk; simpl;
    repeat split.
Qed.

Lemma ways_back_witness :
  let a := {| quizState := QuizState.active; questions := [JNull];
              currentQuestionIndex := 0; score := 1; error := None;
              isKeySet := true; isCheckingKey := false |} in
  renderContent (backToHome (startQuiz_catch a NotAnError)) = StartScreen
  /\ error (backToHome (startQuiz_catch a NotAnError))
     = Some (errorMessage NotAnError)
  /\ questions (backToHome (startQuiz_catch a NotAnError)) = questions a
  /\ score (backToHome (startQuiz_catch a NotAnError)) = score a.
Proof.
  apply (@ways_back
           {| quizState := QuizState.active; questions := [JNull];
              currentQuestionIndex := 0; score := 1; error := None;
              isKeySet := true; isCheckingKey := false |}
           NotAnError); reflexivity.
Defined.

(** X19 (the key check on mount).  The page opens on the verifying
    screen.  When the check is over it never shows that screen again,
    whatever the state.  Without a key, or when the check itself failed,
    it shows the key setup; on mount, with a key it shows the start screen,
    and so it does after a key selection that resolves. *)
Theorem key_check (a : App) (hasKey : option bool) :
  renderContent initial_app = VerifyingSetup
  /\ renderContent (checkApiKey a hasKey) <> VerifyingSetup
  /\ (hasKey <> Some true ->
      renderContent (checkApiKey a hasKey) = ApiKeySetup (error a))
  /\ renderContent (checkApiKey initial_app (Some true)) = StartScreen
  /\ renderContent (handleSetupClick (checkApiKey initial_app hasKey) true)
     = StartScreen.
Proof.
  split; [reflexivity|].
  split.
  { unfold renderContent, checkApiKey. simpl.
    destruct hasKey as [[]|]; simpl; try discriminate.
    destruct (quizState a); try discriminate.
    destruct (questions a); discriminate. }
  split.
  { intros H. unfold renderContent, checkApiKey. simpl.
    destruct hasKey as [[]|]; simpl; try reflexivity. contradiction. }
  split; [reflexivity|].
  now destruct hasKey as [[]|].
Qed.

(* ================================================================== *)
(** ** More on the percentages *)
(* ================================================================== *)

Lemma forallb_seq (f : nat -> bool) (start len n : nat) :
  forallb f (seq start len) = true -> start <= n < start + len -> f n = true.
Proof.
  intros H Hn. rewrite forallb_forall in H. apply H. apply in_seq. exact Hn.
Qed.

Lemma all_summaries_nearest :
  forallb (fun total =>
             forallb (fun score => summary_nearest score total)
               (seq 0 (S total)))
    (seq 1 TOTAL_QUESTIONS_TARGET) = true.
Proof. vm_compute. reflexivity. Qed.

(** The rounding of [ScoreSummary] is not always that of exact
    arithmetic: 23 out of 40 is 57.5 percent, which rounds to 58, and the
    summary shows 57, because [23 / 40 * 100] is just below 57.5 in
    binary64. *)
Example summary_23_of_40 :
  ScoreSummary_percentage (number 23) (number 40) = 57%float
  /\ exact_percentage 23 40 = 58.
Proof. split; reflexivity. Qed.

(** X20 (the summary shows a nearest integer percentage).  For a quiz of
    at most [TOTAL_QUESTIONS_TARGET] questions and a score within the
    total, the percentage [ScoreSummary] computes in binary64 is an
    integer [k] from 0 to 100 that differs from the exact percentage by a
    half at most (at an exact half it can be the lower one), and the
    message is Excellent! for [k] from 80 on, Good Job! from 50 on, Keep
    practicing! below. *)
Theorem summary_percentage_nearest (score total : nat) :
  0 < total <= TOTAL_QUESTIONS_TARGET ->
  score <= total ->
  exists k : nat,
    ScoreSummary_percentage (number score) (number total) = number k
    /\ k <= 100
    /\ 2 * total * k <= 200 * score + total
    /\ 200 * score <= 2 * total * k + total
    /\ ScoreSummary_message
         (ScoreSummary_percentage (number score) (number total))
       = (if 80 <=? k then lit "Excellent!"
          else if 50 <=? k then lit "Good Job!"
          else lit "Keep practicing!").
Proof.
  intros Ht Hs.
  pose proof (@forallb_seq _ 1 TOTAL_QUESTIONS_TARGET total
                all_summaries_nearest) as H.
  cbv beta in H. specialize (H ltac:(lia)).
  pose proof (@forallb_seq _ 0 (S total) score H ltac:(lia)) as Hok.
  unfold summary_nearest in Hok.
  assert (Hk : exists k, summary_shows k score total = true).
  { apply orb_true_iff in Hok as [Hok | Hok]; eexists; exact Hok. }
  destruct Hk as [k Hk]. exists k.
  unfold summary_shows, nearest_percentage in Hk. cbv zeta in Hk.
  apply andb_true_iff in Hk as [Hk Hm].
  apply andb_true_iff in Hk as [Hk H100].
  apply andb_true_iff in Hk as [Hp Hn].
  apply andb_true_iff in Hn as [Hlo Hhi].
  apply FloatAxioms.Leibniz.eqb_spec in Hp.
  apply Nat.leb_le in H100, Hlo, Hhi. apply jsstring_eqb_eq in Hm.
  split; [exact Hp|]. split; [exact H100|]. split; [exact Hlo|].
  split; [exact Hhi | exact Hm].
Qed.

Lemma summary_percentage_nearest_witness :
  exists k : nat,
    ScoreSummary_percentage (number 23) (number 40) = number k
    /\ k <= 100
    /\ 2 * 40 * k <= 200 * 23 + 40
    /\ 200 * 23 <= 2 * 40 * k + 40
    /\ ScoreSummary_message
         (ScoreSummary_percentage (number 23) (number 40))
       = (if 80 <=? k then lit "Excellent!"
          else if 50 <=? k then lit "Good Job!"
          else lit "Keep practicing!").
Proof.
  apply (@summary_percentage_nearest 23 40); unfold TOTAL_QUESTIONS_TARGET; lia.
Defined.

Lemma all_widths_in_range :
  forallb (fun max =>
             forallb (fun value => width_in_range value max)
               (seq 1 max))
    (seq 1 TOTAL_QUESTIONS_TARGET) = true.
Proof. vm_compute. reflexivity. Qed.

(** X21 (the progress bar stays within its track).  For a maximum of at
    most [TOTAL_QUESTIONS_TARGET] and a value from 1 to the maximum, as
    the bar of the active quiz and the bar of the loading screen have
    them, the width computed in binary64 is above 0 and at most 100
    percent, and it is 100 only when the value is the maximum. *)
Theorem progress_width_in_range (value max : nat) :
  0 < value <= max ->
  max <= TOTAL_QUESTIONS_TARGET ->
  (0 <? ProgressBar_percentage (number value) (number max))%float = true
  /\ (ProgressBar_percentage (number value) (number max) <=? 100)%float = true
  /\ ((ProgressBar_percentage (number value) (number max) =? 100)%float = true
      -> value = max).
Proof.
  intros Hv Hm.
  pose proof (@forallb_seq _ 1 TOTAL_QUESTIONS_TARGET max
                all_widths_in_range) as H.
  cbv beta in H. specialize (H ltac:(lia)).
  pose proof (@forallb_seq _ 1 max value H ltac:(lia)) as Hok.
  unfold width_in_range in Hok. cbv zeta in Hok.
  apply andb_true_iff in Hok as [Hok Heq].
  apply andb_true_iff in Hok as [Hpos Hle].
  split; [exact Hpos|]. split; [exact Hle|].
  intros E. rewrite E in Heq. simpl in Heq. now apply Nat.eqb_eq.
Qed.

Lemma progress_width_in_range_witness :
  (0 <? ProgressBar_percentage (number 7) (number 50))%float = true
  /\ (ProgressBar_percentage (number 7) (number 50) <=? 100)%float = true
  /\ ((ProgressBar_percentage (number 7) (number 50) =? 100)%float = true
      -> 7 = 50).
Proof.
  apply (@progress_width_in_range 7 50); unfold TOTAL_QUESTIONS_TARGET; lia.
Defined.
